(** * Yubico OATH session over PC/SC: reader discovery, APDU transceiver,
      TLV framing and the LIST command (package [yk]). *)

From Equations Require Import Equations.
From Stdlib Require Import Ascii String.
From Stdlib Require Import List NArith Arith Lia Bool.
From Stdlib Require Import Init.Byte Strings.Byte.
Import ListNotations.

(** * The model *)

(** ** Bytes

    A Go [byte] is [Byte.byte]; arithmetic on it goes through [N]. *)

Definition byte_of_N (n : N) : byte :=
  match Byte.of_N (n mod 256) with
  | Some b => b
  | None => x00
  end.

(** [a & b] on bytes. *)
Definition byte_and (a b : byte) : byte :=
  byte_of_N (N.land (Byte.to_N a) (Byte.to_N b)).

(** ** TLV codec *)

Module TLV.

(** A decoded entry, [tv] in the source ([tv.tag], [tv.value]). *)
Record tv : Type := mk_tv { tag : byte; value : list byte }.

Definition tvs : Type := list tv.

(** What [read] yields: the entries, or the truncation failure. *)
Inductive result : Type :=
| Decoded (es : tvs)
| TruncatedTLV.

(** Big-endian digits: [k] bytes holding [n] (the low [8k] bits of it). *)
Fixpoint be_encode (k : nat) (n : N) : list byte :=
  match k with
  | O => []
  | S k' => be_encode k' (n / 256) ++ [byte_of_N (n mod 256)]
  end.

Definition be_decode (bs : list byte) : N :=
  fold_left (fun acc b => (acc * 256 + Byte.to_N b)%N) bs 0%N.

(** Number of bytes of the shortest big-endian form of [n]. *)
Definition be_size (n : N) : nat := S (N.to_nat (N.log2 n / 8)).

(** Modelled from the spec: the length field of the codec, whose source
    file is not part of the tree.  A length up to 127 is one byte; a
    longer one is a first byte with its top bit set and the count of
    length bytes in the low seven bits, then the length big-endian. *)
Definition encode_length (n : nat) : list byte :=
  let n' := N.of_nat n in
  if (n' <=? 127)%N then [byte_of_N n']
  else
    let k := be_size n' in
    byte_of_N (128 + N.of_nat k) :: be_encode k n'.

(** Modelled from the spec: one (tag, length, value) triple of the codec,
    whose source file is not part of the tree. *)
Definition encode_entry (e : tv) : list byte :=
  tag e :: encode_length (length (value e)) ++ value e.

(** Modelled from the spec: [Encode] of a sequence of entries, the
    concatenation of their triples; the encoder's source file is not part
    of the tree. *)
Definition Encode (es : tvs) : list byte := flat_map encode_entry es.

(** Modelled from the spec: [write(pad, values...)], the encoder as [send]
    calls it, whose source file is not part of the tree; every value is
    framed under the tag [pad]. *)
Definition write (pad : byte) (values : list (list byte)) : list byte :=
  Encode (map (mk_tv pad) values).

(** [take n buf]: the next [n] bytes and what follows them, when the
    buffer holds that many. *)
Definition take (n : nat) (buf : list byte) : option (list byte * list byte) :=
  if n <=? length buf then Some (firstn n buf, skipn n buf) else None.

(** Modelled from the spec: reading a length field, single or extended;
    the decoder's source file is not part of the tree. *)
Definition decode_length (buf : list byte) : option (nat * list byte) :=
  match buf with
  | [] => None
  | l :: rest =>
      if (Byte.to_N l <? 128)%N then Some (N.to_nat (Byte.to_N l), rest)
      else
        match take (N.to_nat (Byte.to_N l - 128)) rest with
        | Some (digits, rest') => Some (N.to_nat (be_decode digits), rest')
        | None => None
        end
  end.

(** Modelled from the spec: one step of [Decode], whose source file is not
    part of the tree: a tag byte, a length and that many value bytes.
    [None] is a declared length (or a header) that the remaining buffer
    does not hold. *)
Definition read_entry (buf : list byte) : option (tv * list byte) :=
  match buf with
  | [] => None
  | t :: rest =>
      match decode_length rest with
      | Some (n, rest') =>
          match take n rest' with
          | Some (v, rest'') => Some (mk_tv t v, rest'')
          | None => None
          end
      | None => None
      end
  end.

Definition inspect {A : Type} (a : A) : {b : A | a = b} :=
  exist _ a eq_refl.

Definition cons_result (e : tv) (r : result) : result :=
  match r with
  | Decoded es => Decoded (e :: es)
  | TruncatedTLV => TruncatedTLV
  end.

(** Modelled from the spec: [read(buf)], the source's [Decode], whose file
    is not part of the tree: entries are read one after the other until
    the buffer is exhausted.  Every entry takes at least its two header
    bytes off the buffer, so the loop ends. *)
Equations read (buf : list byte) : result by wf (length buf) lt :=
  read [] := Decoded [];
  read (b :: bs) with inspect (read_entry (b :: bs)) := {
    | exist _ (Some (e, rest)) _ => cons_result e (read rest)
    | exist _ None _ => TruncatedTLV }.
Next Obligation.
  match goal with H : _ = Some (e, rest) |- _ => rename H into Heq end.
  assert (forall n (l : list byte) v r,
             take n l = Some (v, r) -> length r <= length l) as Htake.
  { intros n l v r. unfold take. destruct (n <=? length l); [|discriminate].
    intros [= _ <-]. rewrite length_skipn. lia. }
  destruct bs as [|l bs]; simpl in Heq; [discriminate|].
  destruct (Byte.to_N l <? 128)%N.
  - destruct (take _ bs) as [[v r]|] eqn:E; [|discriminate].
    injection Heq as _ <-. apply Htake in E. simpl. lia.
  - destruct (take _ bs) as [[d r]|] eqn:E; [|discriminate].
    destruct (take _ r) as [[v r']|] eqn:E'; [|discriminate].
    injection Heq as _ <-. apply Htake in E, E'. simpl. lia.
Qed.

End TLV.

(** ** Status words (package [iso7816]) *)

Module iso7816.

(** [Code]: the two status bytes closing a response; in [send] it is the
    slice [res[len(res)-2:]]. *)
Definition Code : Type := list byte.

(** Modelled from the spec: [Code.IsMore], the status word 0x61xx (more
    data is pending, [xx] bytes of it); the package is not part of the
    tree. *)
Definition IsMore (c : Code) : bool :=
  match c with
  | [sw1; _] => Byte.eqb sw1 x61
  | _ => false
  end.

(** Modelled from the spec: [Code.IsSuccess], the status word 0x9000. *)
Definition IsSuccess (c : Code) : bool :=
  match c with
  | [sw1; sw2] => Byte.eqb sw1 x90 && Byte.eqb sw2 x00
  | _ => false
  end.

End iso7816.

(** ** Go errors *)

Module errors.

(** The error values the package builds: the sentinels made by
    [errors.New], the errors of the PC/SC layer, a status word returned as
    an error, and the three [fmt.Errorf] formats that wrap them. *)
Inductive error : Type :=
| errorString (text : string)  (* errors.New *)
| scardError (code : N)
| codeError (code : iso7816.Code)
| Errorf_w_w (e1 e2 : error)            (* "%w: %w" *)
| Errorf_w_readers (e : error) (n : nat) (* "%w (out of %d readers)" *)
| Errorf_w_x (e : error) (t : byte).     (* "%w: %x" *)

(** [==] on error values, as far as the package meets it: two sentinels
    are equal when they are the same variable (they are told apart by
    their text), two PC/SC errors when their codes are equal; a status
    word, which is a slice, and a value that [fmt.Errorf] has just built
    are equal to no target. *)
Definition error_eqb (a b : error) : bool :=
  match a, b with
  | errorString s, errorString t => String.eqb s t
  | scardError c, scardError d => N.eqb c d
  | _, _ => false
  end.

(** [errors.Is]: the target is the error itself or one it wraps. *)
Fixpoint Is (e target : error) : bool :=
  error_eqb e target ||
  match e with
  | Errorf_w_w e1 e2 => Is e1 target || Is e2 target
  | Errorf_w_readers e1 _ => Is e1 target
  | Errorf_w_x e1 _ => Is e1 target
  | _ => false
  end.

End errors.
Import errors.

(** ** Go strings (package [strings]) *)

Module strings.

Definition lower (c : ascii) : ascii :=
  let n := nat_of_ascii c in
  if (65 <=? n) && (n <=? 90) then ascii_of_nat (n + 32) else c.

(** Every byte of [s] is below [utf8.RuneSelf]. *)
Fixpoint isASCII (s : string) : bool :=
  match s with
  | EmptyString => true
  | String c s' => (nat_of_ascii c <? 128) && isASCII s'
  end.

(** The ASCII path of [ToLower]: every upper-case letter is replaced by
    its lower-case one. *)
Fixpoint lowerASCII (s : string) : string :=
  match s with
  | EmptyString => EmptyString
  | String c s' => String (lower c) (lowerASCII s')
  end.

(** [strings.ToLower].  Text that is not all ASCII goes through
    [Map(unicode.ToLower, s)] of the Go library, which is taken as given:
    [unicode_lower]. *)
Definition ToLower (unicode_lower : string -> string) (s : string) : string :=
  if isASCII s then lowerASCII s else unicode_lower s.

(** [strings.HasPrefix]: [s] begins with [prefix]. *)
Fixpoint HasPrefix (s prefix : string) {struct prefix} : bool :=
  match prefix, s with
  | EmptyString, _ => true
  | String a prefix', String b s' => Ascii.eqb a b && HasPrefix s' prefix'
  | String _ _, EmptyString => false
  end.

(** [strings.Contains]: [substr] occurs within [s], at some position. *)
Fixpoint Contains (s substr : string) : bool :=
  HasPrefix s substr ||
  match s with
  | EmptyString => false
  | String _ s' => Contains s' substr
  end.

End strings.

(** ** The PC/SC layer (package [scard]) *)

Module scard.

(** Handles of an established context and of a connected card. *)
Definition Context : Type := N.
Definition Card : Type := N.

Inductive ShareMode : Type := ShareExclusive | ShareShared | ShareDirect.
Inductive Protocol : Type :=
  ProtocolUndefined | ProtocolT0 | ProtocolT1 | ProtocolAny.
Inductive Disposition : Type :=
  LeaveCard | ResetCard | UnpowerCard | EjectCard.

(** A value with Go's [(T, error)] convention. *)
Inductive ret (A : Type) : Type :=
| Val (a : A)
| Err (e : error).
Arguments Val {A} a.
Arguments Err {A} e.

(** The calls the package makes, with their arguments. *)
Inductive call : Type :=
| callEstablishContext
| callListReaders (ctx : Context)
| callConnect (ctx : Context) (reader : string) (mode : ShareMode) (proto : Protocol)
| callDisconnect (card : Card) (d : Disposition)
| callRelease (ctx : Context)
| callTransmit (card : Card) (cmd : list byte).

(** The capabilities the package needs of the transport, over the state
    [world] of the readers and cards. *)
Class Transport (world : Type) : Type := {
  EstablishContext : world -> ret Context * world;
  ListReaders : Context -> world -> ret (list string) * world;
  Connect : Context -> string -> ShareMode -> Protocol -> world -> ret Card * world;
  Disconnect : Card -> Disposition -> world -> option error * world;
  Release : Context -> world -> option error * world;
  Transmit : Card -> list byte -> world -> ret (list byte) * world
}.

End scard.
Import scard.

(** ** Package [yk] *)

Module yk.

Import TLV iso7816 strings.

Definition HMACMinimumKeySize : nat := 14.

(** TLV tags for credential data. *)
Definition tagName : byte := x71.
Definition tagNameList : byte := x72.
Definition tagKey : byte := x73.
Definition tagChallenge : byte := x74.
Definition tagResponse : byte := x75.
Definition tagTruncated : byte := x76.
Definition tagHOTP : byte := x77.
Definition tagProperty : byte := x78.
Definition tagVersion : byte := x79.
Definition tagImf : byte := x7a.
Definition tagAlgorithm : byte := x7b.
Definition tagTouch : byte := x7c.

(** Instruction bytes for commands. *)
Definition insList : byte := xa1.
Definition insSelect : byte := xa4.
Definition insPut : byte := x01.
Definition insDelete : byte := x02.
Definition insSetCode : byte := x03.
Definition insReset : byte := x04.
Definition insRename : byte := x05.
Definition insCalculate : byte := xa2.
Definition insValidate : byte := xa3.
Definition insCalculateAll : byte := xa4.
Definition insSendRemaining : byte := xa5.

(** The clock of a session; [New] installs [time.Now]. *)
Inductive clock : Type := time_Now.

(** [time.Second], in nanoseconds. *)
Definition Second : N := 1000000000.

Record OATH : Type := mkOATH {
  Clock : clock;
  Period : N;
  card : Card;
  context : Context
}.

Definition errFailedToConnect := errorString "failed to connect to reader".
Definition errFailedToDisconnect := errorString "failed to disconnect from reader".
Definition errFailedToEstablishContext := errorString "failed to establish context".
Definition errFailedToListReaders := errorString "failed to list readers".
Definition errFailedToListSuitableReader := errorString "no suitable reader found".
Definition errFailedToReleaseContext := errorString "failed to release context".
Definition errFailedToTransmit := errorString "failed to transmit APDU".
Definition errUnknownTag := errorString "unknown tag".

(** How a call that may go wrong ends: with a value and a nil error, with
    an error, or in a run-time panic. *)
Inductive panic : Type :=
| boundsOutOfRange   (* an index or a slice bound beyond the length *)
| truncatedTLV.      (* [read] failing: it has no error result *)

Inductive outcome (A : Type) : Type :=
| Return (a : A)
| Failure (e : error)
| Panic (p : panic).
Arguments Return {A} a.
Arguments Failure {A} e.
Arguments Panic {A} p.

(** [Name] encapsulates the result of the "LIST" instruction. *)
Record Name : Type := mkName {
  Algorithm : byte;
  Type' : byte;
  Name' : string
}.

Section Session.

Context {world : Type} {T : Transport world}.

(** The state a session runs in: the readers and cards, and the calls made
    to the PC/SC layer so far, in order. *)
Record state : Type := mkState { pcsc : world; calls : list call }.

Definition M (A : Type) : Type := state -> A * state.

Definition ret_ {A : Type} (a : A) : M A := fun st => (a, st).

Definition bind {A B : Type} (m : M A) (k : A -> M B) : M B :=
  fun st => let (a, st') := m st in k a st'.

Notation "x <- m ;; k" := (bind m (fun x => k))
  (at level 61, m at next level, right associativity).

(** A call of the PC/SC layer: it runs on the world and is logged. *)
Definition invoke {A : Type} (c : call) (op : world -> A * world) : M A :=
  fun st =>
    let (a, w') := op (pcsc st) in
    (a, mkState w' (calls st ++ [c])).

(** The Unicode path of [strings.ToLower], see there. *)
Variable unicode_lower : string -> string.

(** The [range readers] loop of [New]. *)
Fixpoint New_range (ctx : Context) (n : nat) (readers : list string)
  : M (ret OATH) :=
  match readers with
  | [] => ret_ (Err (Errorf_w_readers errFailedToListSuitableReader n))
  | reader :: rest =>
      if Contains (ToLower unicode_lower reader) "yubikey" then
        r <- invoke (callConnect ctx reader ShareShared ProtocolAny)
                    (Connect ctx reader ShareShared ProtocolAny) ;;
        match r with
        | Err e => ret_ (Err (Errorf_w_w errFailedToConnect e))
        | Val c => ret_ (Val (mkOATH time_Now (30 * Second) c ctx))
        end
      else New_range ctx n rest
  end.

(** [New] initializes a new OATH session. *)
Definition New : M (ret OATH) :=
  r <- invoke callEstablishContext EstablishContext ;;
  match r with
  | Err e => ret_ (Err (Errorf_w_w errFailedToEstablishContext e))
  | Val ctx =>
      r <- invoke (callListReaders ctx) (ListReaders ctx) ;;
      match r with
      | Err e => ret_ (Err (Errorf_w_w errFailedToListReaders e))
      | Val readers => New_range ctx (length readers) readers
      end
  end.

(** [Close] terminates an OATH session; the result is Go's [error], [None]
    for nil. *)
Definition Close (o : OATH) : M (option error) :=
  r <- invoke (callDisconnect (card o) LeaveCard) (Disconnect (card o) LeaveCard) ;;
  match r with
  | Some e => ret_ (Some (Errorf_w_w errFailedToDisconnect e))
  | None =>
      r <- invoke (callRelease (context o)) (Release (context o)) ;;
      match r with
      | Some e => ret_ (Some (Errorf_w_w errFailedToReleaseContext e))
      | None => ret_ None
      end
  end.

(** The encoder and the decoder [send] calls; their file is not part of
    the tree, so [send] and [List] are stated over any pair of them. *)
Variable write : byte -> list (list byte) -> list byte.
Variable read : list byte -> TLV.result.

(** The [for] loop of [send], run for at most [fuel] rounds; [None] is a
    loop still running when they are used up. *)
Fixpoint send_loop (fuel : nat) (o : OATH) (results send : list byte)
  : M (option (outcome tvs)) :=
  match fuel with
  | O => ret_ None
  | S fuel' =>
      r <- invoke (callTransmit (card o) send) (Transmit (card o) send) ;;
      match r with
      | Err e => ret_ (Some (Failure (Errorf_w_w errFailedToTransmit e)))
      | Val res =>
          if length res <? 2 then ret_ (Some (Panic boundsOutOfRange))
          else
            let code : Code := skipn (length res - 2) res in
            let results := results ++ firstn (length res - 2) res in
            if IsMore code then send_loop fuel' o results [x00; xa5; x00; x00]
            else if IsSuccess code then
              match read results with
              | Decoded es => ret_ (Some (Return es))
              | TruncatedTLV => ret_ (Some (Panic truncatedTLV))
              end
            else ret_ (Some (Failure (codeError code)))
      end
  end.

(** [send] sends an APDU to the card. *)
Definition send (fuel : nat) (o : OATH) (cla ins p1 p2 : byte)
  (data : list (list byte)) : M (option (outcome tvs)) :=
  send_loop fuel o [] ([cla; ins; p1; p2] ++ write x00 data).

(** The [range res] loop of [List]. *)
Fixpoint List_range (res : tvs) (names : list Name) : outcome (list Name) :=
  match res with
  | [] => Return names
  | tv :: res' =>
      if Byte.eqb (tag tv) x72 then
        match value tv with
        | [] => Panic boundsOutOfRange
        | v0 :: v1 =>
            List_range res'
              (names ++ [ {| Algorithm := byte_and v0 x0f;
                             Name' := string_of_list_byte v1;
                             Type' := byte_and v0 xf0 |} ])
        end
      else Failure (Errorf_w_x errUnknownTag (tag tv))
  end.

(** [List] sends a "LIST" instruction and returns the OATH credentials. *)
Definition List (fuel : nat) (o : OATH) : M (option (outcome (list Name))) :=
  r <- send fuel o x00 insList x00 x00 [] ;;
  match r with
  | None => ret_ None
  | Some (Return res) => ret_ (Some (List_range res []))
  | Some (Failure e) => ret_ (Some (Failure e))
  | Some (Panic p) => ret_ (Some (Panic p))
  end.

End Session.

End yk.

(** ** An in-memory transport

    One reader list, one card; the card answers from a script, whatever
    the command. *)

Module Mock.

Record world : Type := mkWorld {
  readers : list string;
  connect_err : option error;
  disconnect_err : option error;
  release_err : option error;
  script : list (ret (list byte))
}.

Definition the_context : Context := 1%N.
Definition the_card : Card := 2%N.

(** SCARD_E_READER_UNAVAILABLE, for a card whose script has run out. *)
Definition unavailable : error := scardError 0x80100017.

Definition transmit (w : world) : ret (list byte) * world :=
  match script w with
  | [] => (Err unavailable, w)
  | r :: rest =>
      (r, mkWorld (readers w) (connect_err w) (disconnect_err w)
                  (release_err w) rest)
  end.

#[global] Instance transport : Transport world := {
  EstablishContext w := (Val the_context, w);
  ListReaders _ w := (Val (readers w), w);
  Connect _ _ _ _ w :=
    (match connect_err w with Some e => Err e | None => Val the_card end, w);
  Disconnect _ _ w := (disconnect_err w, w);
  Release _ w := (release_err w, w);
  Transmit _ _ w := transmit w
}.

Definition session : yk.OATH :=
  yk.mkOATH yk.time_Now (30 * yk.Second) the_card the_context.

Definition start (w : world) : yk.state (world := world) := yk.mkState w [].

End Mock.

(** * The vocabulary of the properties *)

Section Vocabulary.

Import yk TLV.

Context {world : Type} {T : Transport world}.

(** A Go slice: its length is an [int]. *)
Definition slice_ok (v : list byte) : Prop :=
  (N.of_nat (length v) < 2 ^ 63)%N.

Definition append_result (es : tvs) (r : result) : result :=
  match r with
  | Decoded es' => Decoded (es ++ es')
  | TruncatedTLV => TruncatedTLV
  end.

(** Bytes of the buffer an entry stands for at least: its tag, one length
    byte, its value. *)
Definition footprint (es : tvs) : nat :=
  list_sum (map (fun e => 2 + length (value e)) es).

(** The device-class marker [New] looks for. *)
Definition marker : string := "yubikey".

(** Matching without regard to case, said without [ToLower]: two
    characters are the same letter when they are equal or one is the
    upper-case form of the other. *)
Definition is_upper (c : ascii) : Prop :=
  65 <= nat_of_ascii c /\ nat_of_ascii c <= 90.

Definition same_letter (c d : ascii) : Prop :=
  c = d \/
  (is_upper c /\ nat_of_ascii d = nat_of_ascii c + 32) \/
  (is_upper d /\ nat_of_ascii c = nat_of_ascii d + 32).

Fixpoint equal_fold (s t : string) : Prop :=
  match s, t with
  | EmptyString, EmptyString => True
  | String c s', String d t' => same_letter c d /\ equal_fold s' t'
  | _, _ => False
  end.

(** [m] occurs in [s] without regard to case. *)
Definition contains_fold (s m : string) : Prop :=
  exists pre mid suf, s = (pre ++ mid ++ suf)%string /\ equal_fold mid m.

Fixpoint no_upper (s : string) : Prop :=
  match s with
  | EmptyString => True
  | String c s' => ~ is_upper c /\ no_upper s'
  end.

(** [m] occurs in [s], letter for letter. *)
Definition occurs (m s : string) : Prop :=
  exists pre suf, s = (pre ++ m ++ suf)%string.

(** A reader name holds the marker without regard to case.  For a name in
    ASCII that is said letter by letter, with no lowering; a name beyond
    ASCII has the cases of its letters from the Unicode tables of the Go
    library, and is compared in the lower case they give it. *)
Definition holds_marker (unicode_lower : string -> string) (reader : string)
  : Prop :=
  if strings.isASCII reader
  then contains_fold reader marker
  else occurs marker (unicode_lower reader).

Definition no_match (unicode_lower : string -> string) (reader : string)
  : Prop :=
  ~ holds_marker unicode_lower reader.

(** The "send remaining" APDU. *)
Definition remaining : list byte := [x00; xa5; x00; x00].

(** What [send] makes of the decoded payload. *)
Definition decoded (r : TLV.result) : outcome tvs :=
  match r with
  | Decoded es => Return es
  | TruncatedTLV => Panic truncatedTLV
  end.

(** [answers c w cmd frags sw1 sw2 w']: from the world [w] the card
    answers [cmd], and then each "send remaining" APDU, with the payload
    fragments [frags] in turn, every answer but the last closing with the
    status word 0x61xx and the last with [sw1 sw2]; [w'] is the world
    after the last answer. *)
Inductive answers (c : Card)
  : world -> list byte -> list (list byte) -> byte -> byte -> world -> Prop :=
| answers_last w cmd payload sw1 sw2 w' :
    Transmit c cmd w = (Val (payload ++ [sw1; sw2]), w') ->
    answers c w cmd [payload] sw1 sw2 w'
| answers_more w cmd payload n w1 frags sw1 sw2 w' :
    Transmit c cmd w = (Val (payload ++ [x61; n]), w1) ->
    answers c w1 remaining frags sw1 sw2 w' ->
    answers c w cmd (payload :: frags) sw1 sw2 w'.

(** An entry [List] can turn into a credential. *)
Definition name_entry (e : tv) : Prop := tag e = x72 /\ value e <> [].

(** The credential [List] builds from such an entry. *)
Definition credential (e : tv) : Name :=
  match value e with
  | [] => mkName x00 x00 EmptyString
  | v0 :: v1 => mkName (byte_and v0 x0f) (byte_and v0 xf0) (string_of_list_byte v1)
  end.

(** What an entry and its credential have to do with each other: the low
    nibble, the high nibble left in its place, the rest as text. *)
Definition describes (e : tv) (n : Name) : Prop :=
  exists v0 v1,
    value e = v0 :: v1 /\
    Byte.to_N (Algorithm n) = (Byte.to_N v0 mod 16)%N /\
    Byte.to_N (Type' n) = (16 * (Byte.to_N v0 / 16))%N /\
    Name' n = string_of_list_byte v1.

End Vocabulary.

(** A card with nothing to it but its script, and the response that lists
    the one credential "work". *)
Definition work_world (script : list (ret (list byte))) : Mock.world :=
  Mock.mkWorld [] None None None script.

Definition work_response : list byte :=
  [x72; x05; x21; x77; x6f; x72; x6b] ++ [x90; x00].

(** ** More vocabulary: the readers [New] tries, the transmits of [send] *)

Section Behaviours.

Import yk TLV.

Context {world : Type} {T : Transport world}.

(** The test [New] makes on a reader name. *)
Definition is_target (unicode_lower : string -> string) (reader : string) : bool :=
  strings.Contains (strings.ToLower unicode_lower reader) "yubikey".

(** What [New] does once the readers are listed, said with [find]: the
    first reader that passes the test is connected to, and the outcome of
    that one connect is the outcome. *)
Definition connect_first (unicode_lower : string -> string) (ctx : Context)
    (readers : list string) (st : state (world := world))
  : ret OATH * state (world := world) :=
  match find (is_target unicode_lower) readers with
  | None =>
      (Err (Errorf_w_readers errFailedToListSuitableReader (length readers)), st)
  | Some r =>
      let (rc, w3) := Connect ctx r ShareShared ProtocolAny (pcsc st) in
      (match rc with
       | Val c => Val (mkOATH time_Now (30 * Second) c ctx)
       | Err e => Err (Errorf_w_w errFailedToConnect e)
       end,
       mkState w3 (calls st ++ [callConnect ctx r ShareShared ProtocolAny]))
  end.

(** The calls of a run of [send] that transmits [k] times: the command,
    then the "send remaining" APDU only. *)
Definition transmits (c : Card) (cmd : list byte) (k : nat) : list call :=
  match k with
  | O => []
  | S k' => callTransmit c cmd :: repeat (callTransmit c remaining) k'
  end.

(** [fails_after c w cmd k e w']: from the world [w] the card answers
    [cmd] and then [k - 1] "send remaining" APDUs with the status word
    0x61xx, [k] answers in all, and the transmit after them fails with
    [e]. *)
Inductive fails_after (c : Card)
  : world -> list byte -> nat -> error -> world -> Prop :=
| fails_now w cmd e w' :
    Transmit c cmd w = (Err e, w') ->
    fails_after c w cmd 0 e w'
| fails_later w cmd payload n w1 k e w' :
    Transmit c cmd w = (Val (payload ++ [x61; n]), w1) ->
    fails_after c w1 remaining k e w' ->
    fails_after c w cmd (S k) e w'.

(** A set of worlds the card never leaves, in each of which it answers
    whatever it is sent with the status word 0x61xx. *)
Definition always_more (c : Card) (I : world -> Prop) : Prop :=
  forall w cmd,
    I w ->
    exists payload n w',
      Transmit c cmd w = (Val (payload ++ [x61; n]), w') /\ I w'.

End Behaviours.

(** A card that answers every command with the status word 0x6100 and no
    payload; its world counts the commands it was sent. *)
Module Busy.

Record world : Type := mkWorld { served : nat }.

#[global] Instance transport : Transport world := {
  EstablishContext w := (Val 1%N, w);
  ListReaders _ w := (Val [], w);
  Connect _ _ _ _ w := (Val 2%N, w);
  Disconnect _ _ w := (None, w);
  Release _ w := (None, w);
  Transmit _ _ w := (Val [x61; x00], mkWorld (S (served w)))
}.

End Busy.

(** * The properties *)

(** ** The TLV codec *)

Section TLVFacts.

Import TLV.

Lemma to_N_byte_of_N (n : N) : (n < 256)%N -> Byte.to_N (byte_of_N n) = n.
Proof.
  intros Hn. unfold byte_of_N. rewrite N.mod_small by assumption.
  destruct (Byte.of_N n) as [b|] eqn:E.
  - now apply Byte.to_of_N.
  - apply Byte.of_N_None_iff in E. lia.
Qed.

Lemma byte_of_N_to_N (b : byte) : byte_of_N (Byte.to_N b) = b.
Proof.
  unfold byte_of_N. pose proof (Byte.to_N_bounded b).
  rewrite N.mod_small by lia. now rewrite Byte.of_to_N.
Qed.

Lemma take_length n buf v rest :
  take n buf = Some (v, rest) ->
  length v = n /\ buf = v ++ rest /\ length rest = length buf - n.
Proof.
  unfold take. destruct (n <=? length buf) eqn:E; [|discriminate].
  apply Nat.leb_le in E. intros [= <- <-].
  rewrite firstn_length_le, firstn_skipn, length_skipn by assumption. auto.
Qed.

Lemma decode_length_shrinks buf n rest :
  decode_length buf = Some (n, rest) -> length rest < length buf.
Proof.
  destruct buf as [|l buf]; simpl; [discriminate|].
  destruct (Byte.to_N l <? 128)%N.
  - intros [= <- <-]. lia.
  - destruct (take _ buf) as [[d r]|] eqn:E; [|discriminate].
    intros [= <- <-]. apply take_length in E. lia.
Qed.

Lemma read_entry_shrinks buf e rest :
  read_entry buf = Some (e, rest) -> length rest < length buf.
Proof.
  destruct buf as [|t buf]; simpl; [discriminate|].
  destruct (decode_length buf) as [[n r]|] eqn:E; [|discriminate].
  destruct (take n r) as [[v r']|] eqn:E'; [|discriminate].
  intros [= <- <-]. apply decode_length_shrinks in E.
  apply take_length in E'. lia.
Qed.

Lemma read_cons b bs :
  read (b :: bs) =
  match read_entry (b :: bs) with
  | Some (e, rest) => cons_result e (read rest)
  | None => TruncatedTLV
  end.
Proof.
  rewrite read_equation_2.
  change (read_entry (b :: bs))
    with (proj1_sig (inspect (read_entry (b :: bs)))) at 2.
  destruct (inspect (read_entry (b :: bs))) as [[[e r]|] H]; reflexivity.
Qed.

Lemma be_decode_snoc bs b :
  be_decode (bs ++ [b]) = (be_decode bs * 256 + Byte.to_N b)%N.
Proof. unfold be_decode. now rewrite fold_left_app. Qed.

Lemma be_encode_length k n : length (be_encode k n) = k.
Proof.
  revert n. induction k as [|k IH]; intros n; simpl; [reflexivity|].
  rewrite length_app, IH. simpl. lia.
Qed.

Lemma be_decode_encode k n :
  (n < 256 ^ N.of_nat k)%N -> be_decode (be_encode k n) = n.
Proof.
  revert n. induction k as [|k IH]; intros n Hn.
  - simpl in *. unfold be_decode. simpl. lia.
  - simpl be_encode. rewrite be_decode_snoc, IH.
    + rewrite to_N_byte_of_N by (apply N.mod_lt; lia).
      rewrite (N.div_mod n 256) at 3 by lia. lia.
    + rewrite Nat2N.inj_succ, N.pow_succ_r' in Hn.
      apply N.Div0.div_lt_upper_bound. lia.
Qed.

Lemma be_size_bound n : (n < 256 ^ N.of_nat (be_size n))%N.
Proof.
  unfold be_size. rewrite Nat2N.inj_succ, N2Nat.id.
  destruct (N.eq_dec n 0) as [->|Hn]; [reflexivity|].
  destruct (N.log2_spec n) as [_ Hlt]; [lia|].
  eapply N.lt_le_trans; [exact Hlt|].
  change 256%N with (2 ^ 8)%N. rewrite <- N.pow_mul_r.
  apply N.pow_le_mono_r; [lia|].
  pose proof (N.div_mod (N.log2 n) 8 ltac:(lia)) as Hd.
  pose proof (N.mod_lt (N.log2 n) 8 ltac:(lia)). lia.
Qed.

Lemma be_size_int n : (n < 2 ^ 63)%N -> be_size n <= 8.
Proof.
  intros Hn. unfold be_size.
  destruct (N.eq_dec n 0) as [->|Hz]; [simpl; lia|].
  assert (N.log2 n < 63)%N as Hl by (apply N.log2_lt_pow2; lia).
  assert (N.log2 n / 8 < 8)%N by (apply N.Div0.div_lt_upper_bound; lia).
  lia.
Qed.

Lemma take_app v rest : take (length v) (v ++ rest) = Some (v, rest).
Proof.
  unfold take. rewrite length_app.
  replace (length v <=? length v + length rest) with true
    by (symmetry; apply Nat.leb_le; lia).
  rewrite firstn_app, Nat.sub_diag, firstn_all, skipn_app, Nat.sub_diag,
    skipn_all. simpl. now rewrite app_nil_r.
Qed.

Lemma decode_length_encode n rest :
  (N.of_nat n < 2 ^ 63)%N ->
  decode_length (encode_length n ++ rest) = Some (n, rest).
Proof.
  intros Hn. unfold encode_length. cbv zeta.
  destruct (N.of_nat n <=? 127)%N eqn:E.
  - apply N.leb_le in E. simpl.
    rewrite to_N_byte_of_N by lia.
    replace (N.of_nat n <? 128)%N with true by (symmetry; apply N.ltb_lt; lia).
    now rewrite Nat2N.id.
  - apply N.leb_gt in E. pose proof (be_size_int _ Hn) as Hk.
    cbn [app decode_length].
    rewrite to_N_byte_of_N by lia.
    replace (128 + N.of_nat (be_size (N.of_nat n)) <? 128)%N with false
      by (symmetry; apply N.ltb_ge; lia).
    replace (N.to_nat (128 + N.of_nat (be_size (N.of_nat n)) - 128))
      with (length (be_encode (be_size (N.of_nat n)) (N.of_nat n)))
      by (rewrite be_encode_length; lia).
    rewrite take_app, be_decode_encode by apply be_size_bound.
    now rewrite Nat2N.id.
Qed.

Lemma read_entry_encode e rest :
  slice_ok (value e) -> read_entry (encode_entry e ++ rest) = Some (e, rest).
Proof.
  destruct e as [t v]. unfold slice_ok, encode_entry. simpl. intros Hv.
  rewrite <- app_assoc, decode_length_encode by assumption.
  now rewrite take_app.
Qed.

Lemma read_encode_entry e rest :
  slice_ok (value e) ->
  read (encode_entry e ++ rest) = cons_result e (read rest).
Proof.
  intros Hv. pose proof (@read_entry_encode e rest Hv) as H.
  unfold encode_entry in *. simpl app in *.
  now rewrite read_cons, H.
Qed.

Lemma take_app_some n buf v rest suf :
  take n buf = Some (v, rest) -> take n (buf ++ suf) = Some (v, rest ++ suf).
Proof.
  intros H. destruct (take_length _ _ _ _ H) as (Hl & -> & _). subst n.
  now rewrite <- app_assoc, take_app.
Qed.

Lemma decode_length_app buf n rest suf :
  decode_length buf = Some (n, rest) ->
  decode_length (buf ++ suf) = Some (n, rest ++ suf).
Proof.
  destruct buf as [|l buf]; simpl; [discriminate|].
  destruct (Byte.to_N l <? 128)%N.
  - now intros [= <- <-].
  - destruct (take _ buf) as [[d r]|] eqn:E; [|discriminate].
    intros [= <- <-]. now rewrite (take_app_some _ _ _ _ suf E).
Qed.

Lemma read_entry_app buf e rest suf :
  read_entry buf = Some (e, rest) ->
  read_entry (buf ++ suf) = Some (e, rest ++ suf).
Proof.
  destruct buf as [|t buf]; simpl; [discriminate|].
  destruct (decode_length buf) as [[n r]|] eqn:E; [|discriminate].
  destruct (take n r) as [[v r']|] eqn:E'; [|discriminate].
  intros [= <- <-].
  now rewrite (decode_length_app _ _ _ suf E), (take_app_some _ _ _ _ suf E').
Qed.

Lemma read_app pre es suf :
  read pre = Decoded es -> read (pre ++ suf) = append_result es (read suf).
Proof.
  remember (length pre) as k eqn:Hk. revert pre es Hk.
  induction k as [k IH] using lt_wf_ind. intros pre es Hk H.
  destruct pre as [|b bs].
  - rewrite read_equation_1 in H. injection H as <-.
    simpl. now destruct (read suf).
  - rewrite read_cons in H.
    destruct (read_entry (b :: bs)) as [[e r]|] eqn:E; [|discriminate].
    destruct (read r) as [es0|] eqn:Er; [|discriminate].
    simpl in H. injection H as <-.
    pose proof (read_entry_shrinks _ _ _ E) as Hlt.
    change ((b :: bs) ++ suf) with (b :: (bs ++ suf)).
    rewrite read_cons.
    change (b :: (bs ++ suf)) with ((b :: bs) ++ suf).
    rewrite (read_entry_app _ _ _ suf E).
    rewrite (IH (length r) ltac:(lia) r es0 eq_refl Er).
    now destruct (read suf).
Qed.

Lemma read_entry_footprint buf e rest :
  read_entry buf = Some (e, rest) ->
  2 + length (value e) + length rest <= length buf.
Proof.
  destruct buf as [|t buf]; simpl; [discriminate|].
  destruct (decode_length buf) as [[n r]|] eqn:E; [|discriminate].
  destruct (take n r) as [[v r']|] eqn:E'; [|discriminate].
  intros [= <- <-]. simpl.
  apply decode_length_shrinks in E.
  destruct (take_length _ _ _ _ E') as (Hv & -> & _).
  rewrite length_app in E. lia.
Qed.

Lemma read_footprint buf es : read buf = Decoded es -> footprint es <= length buf.
Proof.
  remember (length buf) as k eqn:Hk. revert buf es Hk.
  induction k as [k IH] using lt_wf_ind. intros buf es Hk H.
  destruct buf as [|b bs].
  - rewrite read_equation_1 in H. injection H as <-. unfold footprint. simpl. lia.
  - rewrite read_cons in H.
    destruct (read_entry (b :: bs)) as [[e r]|] eqn:E; [|discriminate].
    destruct (read r) as [es0|] eqn:Er; [|discriminate].
    simpl in H. injection H as <-.
    pose proof (read_entry_footprint _ _ _ E) as Hf.
    pose proof (IH (length r) ltac:(subst k; lia) r es0 eq_refl Er).
    unfold footprint in *. subst k. simpl in *. lia.
Qed.

(** C5: decoding the encoding of any sequence of entries gives the
    sequence back, tags, values and order; the values are Go slices, of
    any length an [int] can hold, so also beyond 127 bytes, where the
    length takes the extended form. *)
Theorem read_Encode_roundtrip (E : tvs) :
  Forall (fun e => slice_ok (value e)) E -> read (Encode E) = Decoded E.
Proof.
  induction 1 as [|e E He _ IH].
  - apply read_equation_1.
  - change (Encode (e :: E)) with (encode_entry e ++ Encode E).
    now rewrite read_encode_entry, IH.
Qed.

Lemma read_Encode_roundtrip_witness :
  let E := [mk_tv x72 (repeat x41 300); mk_tv x71 []; mk_tv x7b [x01]] in
  nth_error (Encode E) 1 = Some x82 /\ read (Encode E) = Decoded E.
Proof.
  split; [reflexivity|].
  apply read_Encode_roundtrip.
  repeat constructor; unfold slice_ok; simpl; lia.
Defined.

(** C6: a buffer in which, after entries that decode, an entry declares
    a length beyond the bytes that remain, fails with [TruncatedTLV]; and
    the entries [read] hands out never hold more bytes than the buffer. *)
Theorem read_truncated pre es t hdr n rest :
  read pre = Decoded es ->
  decode_length hdr = Some (n, rest) ->
  length rest < n ->
  read (pre ++ t :: hdr) = TruncatedTLV /\
  (forall buf es', read buf = Decoded es' -> footprint es' <= length buf).
Proof.
  intros Hpre Hhdr Hlt. split; [|apply read_footprint].
  rewrite (read_app _ _ _ Hpre), read_cons. simpl read_entry. rewrite Hhdr.
  unfold take. replace (n <=? length rest) with false
    by (symmetry; apply Nat.leb_gt; lia).
  reflexivity.
Qed.

Lemma read_truncated_witness :
  read ([x71; x01; x41] ++ x72 :: [x05; x21; x77; x6f]) = TruncatedTLV /\
  (forall buf es', read buf = Decoded es' -> footprint es' <= length buf).
Proof.
  apply (read_truncated [x71; x01; x41] [mk_tv x71 [x41]] x72
           [x05; x21; x77; x6f] 5 [x21; x77; x6f]).
  - reflexivity.
  - reflexivity.
  - simpl. lia.
Defined.

End TLVFacts.

(** ** Session lifecycle *)

Section LifecycleFacts.

Import yk strings.

Context {world : Type} {T : Transport world}.

Lemma Is_wrapped text cause :
  Is (Errorf_w_w (errorString text) cause) (errorString text) = true.
Proof. cbn [Is error_eqb]. now rewrite String.eqb_refl. Qed.

(** C2, as the code has it: [Close] stops at the first failure.  A failed
    disconnect is returned wrapped under [errFailedToDisconnect] and the
    context is not released; after a disconnect that worked the context is
    released, and a failure of that is returned wrapped under
    [errFailedToReleaseContext]. *)
Theorem Close_stops_at_first_failure (o : OATH) (st : state)
    (rd : option error) (w1 : world) (rr : option error) (w2 : world) :
  Disconnect (card o) LeaveCard (pcsc st) = (rd, w1) ->
  Release (context o) w1 = (rr, w2) ->
  Close o st =
    match rd with
    | Some e =>
        (Some (Errorf_w_w errFailedToDisconnect e),
         mkState w1 (calls st ++ [callDisconnect (card o) LeaveCard]))
    | None =>
        (option_map (Errorf_w_w errFailedToReleaseContext) rr,
         mkState w2 (calls st ++ [callDisconnect (card o) LeaveCard;
                                  callRelease (context o)]))
    end /\
  (forall e, fst (Close o st) = Some e ->
     Is e match rd with
          | Some _ => errFailedToDisconnect
          | None => errFailedToReleaseContext
          end = true).
Proof.
  intros Hd Hr.
  assert (Close o st =
    match rd with
    | Some e =>
        (Some (Errorf_w_w errFailedToDisconnect e),
         mkState w1 (calls st ++ [callDisconnect (card o) LeaveCard]))
    | None =>
        (option_map (Errorf_w_w errFailedToReleaseContext) rr,
         mkState w2 (calls st ++ [callDisconnect (card o) LeaveCard;
                                  callRelease (context o)]))
    end) as Heq.
  { unfold Close, bind, invoke, ret_. rewrite Hd.
    destruct rd as [e|]; [reflexivity|].
    cbn [pcsc calls]. rewrite Hr, <- app_assoc.
    now destruct rr. }
  split; [exact Heq|].
  rewrite Heq. intros e.
  destruct rd as [e1|]; simpl.
  - intros [= <-]. apply Is_wrapped.
  - destruct rr as [e2|]; simpl; [|discriminate].
    intros [= <-]. apply Is_wrapped.
Qed.

End LifecycleFacts.

Lemma Close_stops_at_first_failure_witness :
  let w := Mock.mkWorld [] None (Some (scardError 1)) (Some (scardError 2)) [] in
  yk.Close Mock.session (Mock.start w) =
    (Some (Errorf_w_w yk.errFailedToDisconnect (scardError 1)),
     yk.mkState w [callDisconnect Mock.the_card LeaveCard]).
Proof.
  intros w.
  exact (proj1 (Close_stops_at_first_failure Mock.session (Mock.start w)
                  (Some (scardError 1)) w (Some (scardError 2)) w
                  eq_refl eq_refl)).
Defined.

(** C2 as it is worded fails: with a disconnect and a release that both
    fail, the context is never released and only the first failure comes
    back. *)
Lemma Close_release_not_attempted :
  let w := Mock.mkWorld [] None (Some (scardError 1)) (Some (scardError 2)) [] in
  let r := yk.Close Mock.session (Mock.start w) in
  ~ In (callRelease Mock.the_context) (yk.calls (snd r)) /\
  (forall e, fst r = Some e -> Is e yk.errFailedToReleaseContext = false).
Proof.
  split.
  - simpl. intros [H|[]]. discriminate H.
  - simpl. intros e [= <-]. reflexivity.
Qed.

(** ** Reader discovery *)

Section DiscoveryFacts.

Import yk strings.

Local Open Scope string_scope.

Lemma lower_same_letter c d :
  ~ is_upper d -> lower c = d <-> same_letter c d.
Proof.
  unfold lower, same_letter, is_upper. intros Hd.
  pose proof (nat_ascii_bounded c) as Hc.
  destruct ((65 <=? nat_of_ascii c)%nat && (nat_of_ascii c <=? 90)%nat) eqn:E.
  - apply andb_true_iff in E. destruct E as [E1 E2].
    apply Nat.leb_le in E1, E2. split.
    + intros <-. right. left. split; [lia|].
      apply nat_ascii_embedding. lia.
    + intros [->|[[_ H]|[H _]]]; [lia| |lia].
      rewrite <- H. apply ascii_nat_embedding.
  - assert (~ (65 <= nat_of_ascii c /\ nat_of_ascii c <= 90)) as Hn.
    { intros [H1 H2]. apply Nat.leb_le in H1, H2. rewrite H1, H2 in E.
      discriminate. }
    split; [now left|].
    intros [H|[[H _]|[H _]]]; [assumption|contradiction|contradiction].
Qed.

Lemma HasPrefix_lowerASCII m s :
  no_upper m ->
  HasPrefix (lowerASCII s) m = true <->
  exists mid suf, s = mid ++ suf /\ equal_fold mid m.
Proof.
  revert s. induction m as [|d m IH]; intros s Hm.
  - simpl. split; [|reflexivity].
    intros _. exists "", s. now split.
  - destruct Hm as [Hd Hm]. destruct s as [|c s]; simpl.
    + split; [discriminate|].
      intros (mid & suf & H & Hf). destruct mid; [contradiction|discriminate].
    + rewrite andb_true_iff, Ascii.eqb_eq, (IH s Hm). split.
      * intros [Hl (mid & suf & -> & Hf)].
        exists (String c mid), suf. split; [reflexivity|]. split; [|assumption].
        apply lower_same_letter; [assumption|now symmetry].
      * intros (mid & suf & H & Hf).
        destruct mid as [|c' mid]; [contradiction|].
        simpl in H. injection H as <- ->. destruct Hf as [Hl Hf].
        split; [symmetry; now apply lower_same_letter|].
        now exists mid, suf.
Qed.

Lemma Contains_lowerASCII m s :
  Contains (lowerASCII s) m = true <->
  exists pre suf, s = pre ++ suf /\ HasPrefix (lowerASCII suf) m = true.
Proof.
  induction s as [|c s IH].
  - simpl. rewrite orb_false_r. split.
    + intros H. now exists "", "".
    + intros (pre & suf & H & Hp).
      destruct pre; [|discriminate]. simpl in H. now subst suf.
  - cbn [lowerASCII Contains]. rewrite orb_true_iff, IH. split.
    + intros [H|(pre & suf & -> & H)].
      * now exists "", (String c s).
      * now exists (String c pre), suf.
    + intros (pre & suf & H & Hp). destruct pre as [|c' pre].
      * simpl in H. subst suf. now left.
      * simpl in H. injection H as <- ->. right. now exists pre, suf.
Qed.

(** On ASCII text, containment in the lowered text is containment without
    regard to case. *)
Lemma Contains_lowerASCII_fold m s :
  no_upper m -> Contains (lowerASCII s) m = true <-> contains_fold s m.
Proof.
  intros Hm. rewrite Contains_lowerASCII. unfold contains_fold. split.
  - intros (pre & suf & -> & H).
    apply (HasPrefix_lowerASCII m suf Hm) in H. destruct H as (mid & suf' & -> & Hf).
    now exists pre, mid, suf'.
  - intros (pre & mid & suf & -> & Hf).
    exists pre, (mid ++ suf). split; [reflexivity|].
    apply (HasPrefix_lowerASCII m _ Hm). now exists mid, suf.
Qed.

Lemma marker_no_upper : no_upper marker.
Proof.
  unfold marker. simpl. repeat split; intros [_ H]; vm_compute in H; lia.
Qed.

Lemma HasPrefix_occurs m s :
  HasPrefix s m = true <-> exists suf, s = m ++ suf.
Proof.
  revert s. induction m as [|a m IH]; intros s.
  - simpl. split; [intros _; now exists s|reflexivity].
  - destruct s as [|b s]; simpl.
    + split; [discriminate|]. intros [suf H]. discriminate H.
    + rewrite andb_true_iff, Ascii.eqb_eq, IH. split.
      * intros [-> [suf ->]]. now exists suf.
      * intros [suf [= <- ->]]. split; [reflexivity|now exists suf].
Qed.

Lemma Contains_occurs m s : Contains s m = true <-> occurs m s.
Proof.
  unfold occurs. induction s as [|c s IH].
  - simpl. rewrite orb_false_r, HasPrefix_occurs. split.
    + intros [suf H]. now exists "", suf.
    + intros (pre & suf & H). destruct pre; [|discriminate].
      now exists suf.
  - cbn [Contains]. rewrite orb_true_iff, HasPrefix_occurs, IH. split.
    + intros [[suf H]|(pre & suf & ->)].
      * now exists "", suf.
      * now exists (String c pre), suf.
    + intros (pre & suf & H). destruct pre as [|c' pre].
      * left. now exists suf.
      * simpl in H. injection H as <- ->. right. now exists pre, suf.
Qed.

End DiscoveryFacts.

Section NewFacts.

Import yk strings.

Context {world : Type} {T : Transport world}.

Variable unicode_lower : string -> string.

(** The test [New] makes on a reader name is that the name holds the
    marker without regard to case. *)
Lemma reader_test reader :
  Contains (ToLower unicode_lower reader) "yubikey" = true <->
  holds_marker unicode_lower reader.
Proof.
  unfold ToLower, holds_marker. destruct (isASCII reader).
  - apply Contains_lowerASCII_fold, marker_no_upper.
  - apply Contains_occurs.
Qed.

Lemma New_range_skip ctx n pre rest (st : state) :
  Forall (no_match unicode_lower) pre ->
  New_range unicode_lower ctx n (pre ++ rest) st =
  New_range unicode_lower ctx n rest st.
Proof.
  induction 1 as [|r pre Hr _ IH]; [reflexivity|].
  cbn [app New_range].
  destruct (Contains (ToLower unicode_lower r) "yubikey") eqn:E.
  - apply reader_test in E. contradiction.
  - exact IH.
Qed.

(** C7: of the reader names the transport lists, whatever they are, [New]
    connects, shared and under any protocol, to the first one that holds
    "yubikey" without regard to case, and to no other; when no name does,
    it fails with [errFailedToListSuitableReader] and the number of
    readers listed. *)
Theorem New_selects_first_match (st : state) (ctx : Context) (w1 : world)
    (readers : list string) (w2 : world) :
  EstablishContext (pcsc st) = (Val ctx, w1) ->
  ListReaders ctx w1 = (Val readers, w2) ->
  (forall pre r post rc w3,
     readers = pre ++ r :: post ->
     Forall (no_match unicode_lower) pre ->
     holds_marker unicode_lower r ->
     Connect ctx r ShareShared ProtocolAny w2 = (rc, w3) ->
     New unicode_lower st =
       (match rc with
        | Val c => Val (mkOATH time_Now (30 * Second) c ctx)
        | Err e => Err (Errorf_w_w errFailedToConnect e)
        end,
        mkState w3 (calls st ++ [callEstablishContext; callListReaders ctx;
                                 callConnect ctx r ShareShared ProtocolAny]))) /\
  (Forall (no_match unicode_lower) readers ->
   New unicode_lower st =
     (Err (Errorf_w_readers errFailedToListSuitableReader (length readers)),
      mkState w2 (calls st ++ [callEstablishContext; callListReaders ctx]))).
Proof.
  intros He Hl.
  assert (New unicode_lower st =
            New_range unicode_lower ctx (length readers) readers
              (mkState w2 (calls st ++ [callEstablishContext; callListReaders ctx])))
    as Hnew.
  { unfold New, bind, invoke, ret_. rewrite He. cbn [pcsc calls].
    now rewrite Hl, <- app_assoc. }
  rewrite Hnew. clear Hnew. split.
  - intros pre r post rc w3 -> Hpre Hr Hc.
    rewrite New_range_skip by assumption.
    cbn [New_range].
    apply reader_test in Hr. rewrite Hr.
    unfold bind, invoke, ret_. cbn [pcsc calls]. rewrite Hc, <- app_assoc.
    now destruct rc.
  - intros Hnone.
    rewrite <- (app_nil_r readers) at 2.
    now rewrite New_range_skip by assumption.
Qed.

End NewFacts.

Lemma New_selects_first_match_witness :
  let w := Mock.mkWorld ["ACS Reader"; "YubiKey 5 NFC"]%string None None None [] in
  yk.New (fun s => s) (Mock.start w) =
    (Val Mock.session,
     yk.mkState w [callEstablishContext; callListReaders Mock.the_context;
                   callConnect Mock.the_context "YubiKey 5 NFC"
                     ShareShared ProtocolAny]).
Proof.
  intros w.
  destruct (New_selects_first_match (fun s => s) (Mock.start w)
              Mock.the_context w ["ACS Reader"; "YubiKey 5 NFC"]%string w)
    as [H _]; [reflexivity|reflexivity|].
  apply (H ["ACS Reader"%string] "YubiKey 5 NFC"%string [] (Val Mock.the_card) w).
  - reflexivity.
  - constructor; [|constructor]. intros Hc.
    apply (Contains_lowerASCII_fold _ _ marker_no_upper) in Hc. discriminate Hc.
  - apply (Contains_lowerASCII_fold _ _ marker_no_upper). reflexivity.
  - reflexivity.
Defined.

(** ** The APDU transceiver *)

Section SendFacts.

Import yk TLV iso7816.

Context {world : Type} {T : Transport world}.

Variable write : byte -> list (list byte) -> list byte.
Variable read : list byte -> TLV.result.

Lemma status_word_split (payload : list byte) (sw1 sw2 : byte) :
  let res := payload ++ [sw1; sw2] in
  (length res <? 2) = false /\
  skipn (length res - 2) res = [sw1; sw2] /\
  firstn (length res - 2) res = payload.
Proof.
  cbv zeta. rewrite length_app. simpl length.
  replace (length payload + 2 - 2) with (length payload) by lia.
  repeat split.
  - apply Nat.ltb_ge. lia.
  - rewrite skipn_app, Nat.sub_diag, skipn_all. reflexivity.
  - rewrite firstn_app, Nat.sub_diag, firstn_all. simpl. apply app_nil_r.
Qed.

Lemma answers_length c w cmd frags sw1 sw2 w' :
  answers c w cmd frags sw1 sw2 w' -> 1 <= length frags.
Proof. destruct 1; simpl; lia. Qed.

(** The loop over a whole exchange: how it ends depends on the last
    status word alone. *)
Lemma send_loop_answers (o : OATH) w cmd frags sw1 sw2 w' :
  answers (card o) w cmd frags sw1 sw2 w' ->
  IsMore [sw1; sw2] = false ->
  forall fuel acc log,
    length frags <= fuel ->
    send_loop read fuel o acc cmd (mkState w log) =
      (Some (if IsSuccess [sw1; sw2]
             then decoded (read (acc ++ concat frags))
             else Failure (codeError [sw1; sw2])),
       mkState w' (log ++ callTransmit (card o) cmd ::
                     repeat (callTransmit (card o) remaining) (length frags - 1))).
Proof.
  intros Hans Hmore.
  induction Hans as [w cmd payload sw1 sw2 w' Ht
                    |w cmd payload n w1 frags sw1 sw2 w' Ht Hans IH];
    intros fuel acc log Hfuel;
    (destruct fuel as [|fuel]; [simpl in Hfuel; lia|]);
    cbn [send_loop]; unfold bind, invoke; cbn [pcsc calls]; rewrite Ht.
  - destruct (status_word_split payload sw1 sw2) as (Hs1 & Hs2 & Hs3).
    rewrite Hs1. cbv zeta. rewrite Hs2, Hs3, Hmore.
    simpl concat. rewrite app_nil_r.
    destruct (IsSuccess [sw1; sw2]); [|reflexivity].
    unfold decoded. now destruct (read (acc ++ payload)).
  - destruct (status_word_split payload x61 n) as (Hm1 & Hm2 & Hm3).
    rewrite Hm1. cbv zeta. rewrite Hm2, Hm3.
    change (IsMore [x61; n]) with true. cbv iota.
    pose proof (answers_length _ _ _ _ _ _ _ Hans) as Hlen.
    simpl in Hfuel.
    fold remaining.
    rewrite (IH Hmore fuel (acc ++ payload) (log ++ [callTransmit (card o) cmd]))
      by lia.
    simpl concat. rewrite <- !app_assoc. simpl length.
    replace (S (length frags) - 1) with (S (length frags - 1)) by lia.
    reflexivity.
Qed.

(** C3: over a card that answers with the status word 0x61xx any number
    of times and then with 0x9000, [send] transmits the header and the
    encoded data first and the "send remaining" APDU after every 0x61xx,
    and decodes the payload fragments joined in the order they came. *)
Theorem send_chains_more_data (o : OATH) (cla ins p1 p2 : byte)
    (data : list (list byte)) (st : state) (frags : list (list byte))
    (w' : world) (fuel : nat) :
  answers (card o) (pcsc st) ([cla; ins; p1; p2] ++ write x00 data)
          frags x90 x00 w' ->
  length frags <= fuel ->
  send write read fuel o cla ins p1 p2 data st =
    (Some (decoded (read (concat frags))),
     mkState w'
       (calls st ++
        callTransmit (card o) ([cla; ins; p1; p2] ++ write x00 data) ::
        repeat (callTransmit (card o) [x00; xa5; x00; x00]) (length frags - 1))).
Proof.
  intros Hans Hfuel. unfold send. destruct st as [w log].
  exact (send_loop_answers o _ _ _ _ _ _ Hans eq_refl fuel [] log Hfuel).
Qed.

(** C4: the first status word that is neither 0x61xx nor 0x9000 ends the
    loop and is itself the error [send] returns; the result does not
    depend on the decoder, which is not run. *)
Theorem send_fails_with_status_word (o : OATH) (cla ins p1 p2 : byte)
    (data : list (list byte)) (st : state) (frags : list (list byte))
    (sw1 sw2 : byte) (w' : world) (fuel : nat) :
  answers (card o) (pcsc st) ([cla; ins; p1; p2] ++ write x00 data)
          frags sw1 sw2 w' ->
  IsMore [sw1; sw2] = false ->
  IsSuccess [sw1; sw2] = false ->
  length frags <= fuel ->
  send write read fuel o cla ins p1 p2 data st =
    (Some (Failure (codeError [sw1; sw2])),
     mkState w'
       (calls st ++
        callTransmit (card o) ([cla; ins; p1; p2] ++ write x00 data) ::
        repeat (callTransmit (card o) [x00; xa5; x00; x00]) (length frags - 1))).
Proof.
  intros Hans Hmore Hsucc Hfuel. unfold send. destruct st as [w log].
  cbn [pcsc calls] in *.
  rewrite (send_loop_answers o _ _ _ _ _ _ Hans Hmore fuel [] log Hfuel).
  now rewrite Hsucc.
Qed.

Lemma status_word_exists (res : list byte) :
  2 <= length res -> exists payload sw1 sw2, res = payload ++ [sw1; sw2].
Proof.
  intros Hlen. exists (firstn (length res - 2) res).
  pose proof (firstn_skipn (length res - 2) res) as Hsplit.
  pose proof (length_skipn (length res - 2) res) as Hsk.
  destruct (skipn (length res - 2) res) as [|a [|b [|c l]]];
    simpl in Hsk; try lia.
  exists a, b. now symmetry.
Qed.

(** C9: in every round of its loop [send] slices the last two bytes off
    the response as the status word and takes what precedes them as
    payload; on a response of fewer than two bytes the slice is out of
    bounds, and on any longer one the round goes on with that split. *)
Theorem send_needs_status_word (o : OATH) (results cmd : list byte)
    (st : state) (res : list byte) (w' : world) (fuel : nat) :
  Transmit (card o) cmd (pcsc st) = (Val res, w') ->
  let st' := mkState w' (calls st ++ [callTransmit (card o) cmd]) in
  (length res < 2 ->
   send_loop read (S fuel) o results cmd st =
     (Some (Panic boundsOutOfRange), st')) /\
  (2 <= length res ->
   exists payload sw1 sw2,
     res = payload ++ [sw1; sw2] /\
     send_loop read (S fuel) o results cmd st =
       if IsMore [sw1; sw2]
       then send_loop read fuel o (results ++ payload) remaining st'
       else (Some (if IsSuccess [sw1; sw2]
                   then decoded (read (results ++ payload))
                   else Failure (codeError [sw1; sw2])), st')).
Proof.
  intros Ht st'. subst st'.
  cbn [send_loop]. unfold bind, invoke. rewrite Ht. split.
  - intros Hlen. apply Nat.ltb_lt in Hlen. now rewrite Hlen.
  - intros Hlen. destruct (status_word_exists res Hlen) as (payload & sw1 & sw2 & ->).
    exists payload, sw1, sw2. split; [reflexivity|].
    destruct (status_word_split payload sw1 sw2) as (Hs1 & Hs2 & Hs3).
    rewrite Hs1. cbv zeta. rewrite Hs2, Hs3.
    destruct (IsMore [sw1; sw2]); [reflexivity|].
    destruct (IsSuccess [sw1; sw2]); [|reflexivity].
    unfold decoded. now destruct (read (results ++ payload)).
Qed.

End SendFacts.

Lemma send_chains_more_data_witness :
  let w := fun script => Mock.mkWorld [] None None None script in
  yk.send TLV.write TLV.read 3 Mock.session x00 yk.insList x00 x00 []
    (Mock.start (w [Val ([x72; x05; x21] ++ [x61; x10]);
                    Val ([x77; x6f] ++ [x61; x05]);
                    Val ([x72; x6b] ++ [x90; x00])])) =
    (Some (yk.Return [TLV.mk_tv x72 [x21; x77; x6f; x72; x6b]]),
     yk.mkState (w [])
       [callTransmit Mock.the_card [x00; xa1; x00; x00];
        callTransmit Mock.the_card [x00; xa5; x00; x00];
        callTransmit Mock.the_card [x00; xa5; x00; x00]]).
Proof.
  intros w.
  apply (send_chains_more_data TLV.write TLV.read Mock.session
           x00 yk.insList x00 x00 [] (Mock.start _)
           [[x72; x05; x21]; [x77; x6f]; [x72; x6b]] (w []) 3).
  - apply (answers_more _ _ _ [x72; x05; x21] x10
             (w [Val ([x77; x6f] ++ [x61; x05]);
                 Val ([x72; x6b] ++ [x90; x00])])); [reflexivity|].
    apply (answers_more _ _ _ [x77; x6f] x05
             (w [Val ([x72; x6b] ++ [x90; x00])])); [reflexivity|].
    apply answers_last. reflexivity.
  - simpl. lia.
Defined.

Lemma send_fails_with_status_word_witness :
  let w := fun script => Mock.mkWorld [] None None None script in
  yk.send TLV.write (fun _ => TLV.TruncatedTLV) 1 Mock.session
    x00 yk.insList x00 x00 []
    (Mock.start (w [Val ([x72; x05] ++ [x6a; x82]); Val [x90; x00]])) =
    (Some (yk.Failure (codeError [x6a; x82])),
     yk.mkState (w [Val [x90; x00]])
       [callTransmit Mock.the_card [x00; xa1; x00; x00]]).
Proof.
  intros w.
  apply (send_fails_with_status_word TLV.write (fun _ => TLV.TruncatedTLV)
           Mock.session x00 yk.insList x00 x00 [] (Mock.start _)
           [[x72; x05]] x6a x82 (w [Val [x90; x00]]) 1).
  - apply answers_last. reflexivity.
  - reflexivity.
  - reflexivity.
  - simpl. lia.
Defined.

Lemma send_needs_status_word_witness :
  let w := fun script => Mock.mkWorld [] None None None script in
  yk.send TLV.write TLV.read 1 Mock.session x00 yk.insList x00 x00 []
    (Mock.start (w [Val [x90]])) =
    (Some (yk.Panic yk.boundsOutOfRange),
     yk.mkState (w []) [callTransmit Mock.the_card [x00; xa1; x00; x00]]).
Proof.
  intros w.
  destruct (send_needs_status_word TLV.read Mock.session []
              [x00; xa1; x00; x00] (Mock.start (w [Val [x90]]))
              [x90] (w []) 0) as [H _]; [reflexivity|].
  apply H. simpl. lia.
Defined.

(** ** The LIST command *)

Section ListFacts.

Import yk TLV.

Context {world : Type} {T : Transport world}.

Variable write : byte -> list (list byte) -> list byte.
Variable read : list byte -> TLV.result.

Lemma low_nibble v : Byte.to_N (byte_and v x0f) = (Byte.to_N v mod 16)%N.
Proof. destruct v; reflexivity. Qed.

Lemma high_nibble v : Byte.to_N (byte_and v xf0) = (16 * (Byte.to_N v / 16))%N.
Proof. destruct v; reflexivity. Qed.

Lemma credential_describes e : name_entry e -> describes e (credential e).
Proof.
  intros [_ Hv]. unfold describes, credential.
  destruct (value e) as [|v0 v1]; [congruence|].
  exists v0, v1. simpl. auto using low_nibble, high_nibble.
Qed.

Lemma List_range_names pre rest acc :
  Forall name_entry pre ->
  List_range (pre ++ rest) acc = List_range rest (acc ++ map credential pre).
Proof.
  intros H. revert acc. induction H as [|e pre [Ht Hv] _ IH]; intros acc.
  - simpl. now rewrite app_nil_r.
  - destruct (value e) as [|v0 v1] eqn:Ev; [congruence|].
    assert (credential e =
            mkName (byte_and v0 x0f) (byte_and v0 xf0) (string_of_list_byte v1))
      as Hc by (unfold credential; now rewrite Ev).
    cbn [app List_range map]. rewrite Ht, Ev, IH, Hc, <- app_assoc.
    reflexivity.
Qed.

Lemma List_of_send fuel o (st : state) es st' :
  send write read fuel o x00 insList x00 x00 [] st = (Some (Return es), st') ->
  List write read fuel o st = (Some (List_range es []), st').
Proof. intros H. unfold List, bind. now rewrite H. Qed.

(** C1, as the code has it: when every entry of the response has the
    tag 0x72 and a value that is not empty, [List] returns one credential
    an entry, in order: the algorithm is the low nibble of the first
    value byte, the type is that byte with its low nibble cleared (the
    high nibble where it stands, not moved down), the name is the rest of
    the value. *)
Theorem List_credentials (fuel : nat) (o : OATH) (st : state) (es : tvs)
    (st' : state) :
  send write read fuel o x00 insList x00 x00 [] st = (Some (Return es), st') ->
  Forall name_entry es ->
  exists names,
    List write read fuel o st = (Some (Return names), st') /\
    Forall2 describes es names.
Proof.
  intros Hs Hes. exists (map credential es). split.
  - rewrite (List_of_send _ _ _ _ _ Hs).
    rewrite <- (app_nil_r es) at 1.
    now rewrite (List_range_names es [] [] Hes).
  - clear Hs. induction Hes as [|e es He _ IH]; simpl; constructor.
    + now apply credential_describes.
    + exact IH.
Qed.

(** C8, as the code has it: the first entry whose tag is not 0x72, when
    the entries before it could be turned into credentials, fails the call
    with [errUnknownTag] and that tag; no credential is returned. *)
Theorem List_unknown_tag (fuel : nat) (o : OATH) (st : state)
    (pre : tvs) (e : tv) (post : tvs) (st' : state) :
  send write read fuel o x00 insList x00 x00 [] st =
    (Some (Return (pre ++ e :: post)), st') ->
  Forall name_entry pre ->
  tag e <> x72 ->
  List write read fuel o st =
    (Some (Failure (Errorf_w_x errUnknownTag (tag e))), st') /\
  Is (Errorf_w_x errUnknownTag (tag e)) errUnknownTag = true.
Proof.
  intros Hs Hpre Ht. split; [|reflexivity].
  rewrite (List_of_send _ _ _ _ _ Hs), (List_range_names pre _ [] Hpre).
  simpl. destruct (Byte.eqb (tag e) x72) eqn:E; [|reflexivity].
  apply Byte.byte_dec_bl in E. contradiction.
Qed.

(** C10: [List] indexes the value of an entry tagged 0x72 at 0; on an
    empty value that is out of bounds, and when no such entry has an empty
    value the call does not panic. *)
Theorem List_needs_value (fuel : nat) (o : OATH) (st : state) (es : tvs)
    (st' : state) :
  send write read fuel o x00 insList x00 x00 [] st = (Some (Return es), st') ->
  (forall pre post,
     es = pre ++ mk_tv x72 [] :: post ->
     Forall name_entry pre ->
     List write read fuel o st = (Some (Panic boundsOutOfRange), st')) /\
  (Forall (fun e => tag e = x72 -> value e <> []) es ->
   forall p, List write read fuel o st <> (Some (Panic p), st')).
Proof.
  intros Hs. rewrite (List_of_send _ _ _ _ _ Hs). split.
  - intros pre post -> Hpre.
    now rewrite (List_range_names pre _ [] Hpre).
  - intros Hes p. clear Hs. generalize (@nil Name).
    induction Hes as [|e es He _ IH]; intros acc; simpl.
    + discriminate.
    + destruct (Byte.eqb (tag e) x72) eqn:E; [|discriminate].
      apply Byte.byte_dec_bl in E. specialize (He E).
      destruct (value e) as [|v0 v1]; [congruence|]. apply IH.
Qed.

End ListFacts.

Lemma List_credentials_witness :
  exists names,
    yk.List TLV.write TLV.read 1 Mock.session
      (Mock.start (work_world [Val work_response])) =
      (Some (yk.Return names),
       yk.mkState (work_world [])
         [callTransmit Mock.the_card [x00; xa1; x00; x00]]) /\
    Forall2 describes [TLV.mk_tv x72 [x21; x77; x6f; x72; x6b]] names.
Proof.
  apply (List_credentials TLV.write TLV.read 1 Mock.session
           (Mock.start (work_world [Val work_response]))).
  - reflexivity.
  - repeat constructor. discriminate.
Defined.

(** C1 as it is worded fails on its own example: the type of the
    credential for the value 0x21 "work" is 0x20, not 2. *)
Lemma List_type_keeps_high_nibble_in_place :
  exists n st',
    yk.List TLV.write TLV.read 1 Mock.session
      (Mock.start (work_world [Val work_response])) =
      (Some (yk.Return [n]), st') /\
    yk.Algorithm n = x01 /\ yk.Name' n = "work"%string /\
    yk.Type' n = x20 /\ Byte.to_N (yk.Type' n) <> 2%N.
Proof.
  eexists. eexists. split; [reflexivity|].
  simpl. repeat split. discriminate.
Qed.

Lemma List_unknown_tag_witness :
  yk.List TLV.write TLV.read 1 Mock.session
    (Mock.start (work_world [Val ([x72; x01; x21; x73; x00] ++ [x90; x00])])) =
    (Some (yk.Failure (Errorf_w_x yk.errUnknownTag x73)),
     yk.mkState (work_world [])
       [callTransmit Mock.the_card [x00; xa1; x00; x00]]) /\
  Is (Errorf_w_x yk.errUnknownTag x73) yk.errUnknownTag = true.
Proof.
  apply (List_unknown_tag TLV.write TLV.read 1 Mock.session
           (Mock.start (work_world [Val ([x72; x01; x21; x73; x00] ++ [x90; x00])]))
           [TLV.mk_tv x72 [x21]] (TLV.mk_tv x73 []) []).
  - reflexivity.
  - repeat constructor. discriminate.
  - discriminate.
Defined.

(** C8 as it is worded fails: an entry tagged 0x73 that comes after an
    entry tagged 0x72 with an empty value is never reached; the call ends
    in a panic, not in [errUnknownTag]. *)
Lemma List_unknown_tag_not_reached :
  let st := Mock.start (work_world [Val ([x72; x00; x73; x00] ++ [x90; x00])]) in
  fst (yk.send TLV.write TLV.read 1 Mock.session x00 yk.insList x00 x00 [] st) =
    Some (yk.Return [TLV.mk_tv x72 []; TLV.mk_tv x73 []]) /\
  fst (yk.List TLV.write TLV.read 1 Mock.session st) =
    Some (yk.Panic yk.boundsOutOfRange) /\
  fst (yk.List TLV.write TLV.read 1 Mock.session st) <>
    Some (yk.Failure (Errorf_w_x yk.errUnknownTag x73)).
Proof. repeat split. discriminate. Qed.

Lemma List_needs_value_witness :
  yk.List TLV.write TLV.read 1 Mock.session
    (Mock.start (work_world [Val ([x72; x01; x21; x72; x00] ++ [x90; x00])])) =
    (Some (yk.Panic yk.boundsOutOfRange),
     yk.mkState (work_world [])
       [callTransmit Mock.the_card [x00; xa1; x00; x00]]).
Proof.
  destruct (List_needs_value TLV.write TLV.read 1 Mock.session
              (Mock.start (work_world [Val ([x72; x01; x21; x72; x00] ++ [x90; x00])]))
              [TLV.mk_tv x72 [x21]; TLV.mk_tv x72 []]
              (yk.mkState (work_world [])
                 [callTransmit Mock.the_card [x00; xa1; x00; x00]]))
    as [H _]; [reflexivity|].
  apply (H [TLV.mk_tv x72 [x21]] []); [reflexivity|].
  repeat constructor. discriminate.
Defined.


(** ** More on the session lifecycle *)

Section LifecycleMore.

Import yk strings.

Context {world : Type} {T : Transport world}.

Variable unicode_lower : string -> string.

Lemma New_range_find ctx n readers (st : state) :
  New_range unicode_lower ctx n readers st =
  match find (is_target unicode_lower) readers with
  | None => (Err (Errorf_w_readers errFailedToListSuitableReader n), st)
  | Some r =>
      let (rc, w3) := Connect ctx r ShareShared ProtocolAny (pcsc st) in
      (match rc with
       | Val c => Val (mkOATH time_Now (30 * Second) c ctx)
       | Err e => Err (Errorf_w_w errFailedToConnect e)
       end,
       mkState w3 (calls st ++ [callConnect ctx r ShareShared ProtocolAny]))
  end.
Proof.
  induction readers as [|r readers IH]; [reflexivity|].
  cbn [New_range find]. unfold is_target at 1.
  destruct (Contains (ToLower unicode_lower r) "yubikey"); [|exact IH].
  unfold bind, invoke, ret_.
  destruct (Connect ctx r ShareShared ProtocolAny (pcsc st)) as [[c|e] w3];
    reflexivity.
Qed.

Lemma New_listed (st : state) ctx w1 readers w2 :
  EstablishContext (pcsc st) = (Val ctx, w1) ->
  ListReaders ctx w1 = (Val readers, w2) ->
  New unicode_lower st =
    connect_first unicode_lower ctx readers
      (mkState w2 (calls st ++ [callEstablishContext; callListReaders ctx])).
Proof.
  intros He Hl. unfold New, bind, invoke, ret_. rewrite He. cbn [pcsc calls].
  rewrite Hl, <- app_assoc. cbn [app]. rewrite New_range_find. reflexivity.
Qed.

(** X1: whatever the transport does, [New] calls it one to three times:
    it establishes a context, then lists the readers, then connects once,
    shared and under any protocol.  It never releases the context it has
    established, also not when it fails, and never connects twice. *)
Theorem New_calls (st : state) :
  exists suffix,
    calls (snd (New unicode_lower st)) = calls st ++ suffix /\
    (suffix = [callEstablishContext] \/
     (exists ctx, suffix = [callEstablishContext; callListReaders ctx]) \/
     (exists ctx r,
        suffix = [callEstablishContext; callListReaders ctx;
                  callConnect ctx r ShareShared ProtocolAny])).
Proof.
  destruct (EstablishContext (pcsc st)) as [[ctx|e] w1] eqn:He.
  - destruct (ListReaders ctx w1) as [[readers|e] w2] eqn:Hl.
    + rewrite (New_listed st ctx w1 readers w2 He Hl). unfold connect_first.
      destruct (find (is_target unicode_lower) readers) as [r|].
      * cbn [pcsc calls].
        destruct (Connect ctx r ShareShared ProtocolAny w2) as [rc w3].
        exists [callEstablishContext; callListReaders ctx;
                callConnect ctx r ShareShared ProtocolAny].
        split; [cbn [snd calls]; now rewrite <- app_assoc|].
        right. right. now exists ctx, r.
      * exists [callEstablishContext; callListReaders ctx].
        split; [reflexivity|]. right. left. now exists ctx.
    + exists [callEstablishContext; callListReaders ctx]. split.
      * unfold New, bind, invoke, ret_. rewrite He. cbn [pcsc calls].
        rewrite Hl. cbn [snd calls]. now rewrite <- app_assoc.
      * right. left. now exists ctx.
  - exists [callEstablishContext]. split; [|now left].
    unfold New, bind, invoke, ret_. now rewrite He.
Qed.

(** X2: for reader names of any kind, once the readers are listed [New]
    is a search for the first name that passes its test: that reader and
    no later one is connected to, a failed connect is not made up for by
    another reader, and readers that do not pass are never connected to. *)
Theorem New_connects_first_target (st : state) (ctx : Context) (w1 : world)
    (readers : list string) (w2 : world) :
  EstablishContext (pcsc st) = (Val ctx, w1) ->
  ListReaders ctx w1 = (Val readers, w2) ->
  New unicode_lower st =
    connect_first unicode_lower ctx readers
      (mkState w2 (calls st ++ [callEstablishContext; callListReaders ctx])) /\
  (forall r, find (is_target unicode_lower) readers = Some r ->
     exists pre post,
       readers = pre ++ r :: post /\
       is_target unicode_lower r = true /\
       Forall (fun x => is_target unicode_lower x = false) pre).
Proof.
  intros He Hl. split; [now apply New_listed with (w1 := w1)|].
  clear He Hl. induction readers as [|x readers IH]; [discriminate|].
  intros r. cbn [find].
  destruct (is_target unicode_lower x) eqn:Ex.
  - intros [= <-]. exists [], readers. repeat split; [assumption|constructor].
  - intros Hf. destruct (IH r Hf) as (pre & post & -> & Hr & Hpre).
    exists (x :: pre), post. repeat split; [assumption|].
    now constructor.
Qed.

(** X3: every error [New] returns can be matched, with [errors.Is],
    against one of its four sentinels. *)
Theorem New_errors_matchable (st : state) (e : error) (st' : state) :
  New unicode_lower st = (Err e, st') ->
  Is e errFailedToEstablishContext = true \/
  Is e errFailedToListReaders = true \/
  Is e errFailedToConnect = true \/
  Is e errFailedToListSuitableReader = true.
Proof.
  destruct (EstablishContext (pcsc st)) as [[ctx|e0] w1] eqn:He.
  - destruct (ListReaders ctx w1) as [[readers|e0] w2] eqn:Hl.
    + rewrite (New_listed st ctx w1 readers w2 He Hl). unfold connect_first.
      destruct (find (is_target unicode_lower) readers) as [r|].
      * cbn [pcsc calls].
        destruct (Connect ctx r ShareShared ProtocolAny w2) as [[c|e0] w3].
        -- discriminate.
        -- intros [= <- _]. right. right. left. reflexivity.
      * intros [= <- _]. right. right. right. reflexivity.
    + unfold New, bind, invoke, ret_. rewrite He. cbn [pcsc calls]. rewrite Hl.
      intros [= <- _]. right. left. reflexivity.
  - unfold New, bind, invoke, ret_. rewrite He.
    intros [= <- _]. left. reflexivity.
Qed.

(** X4: a session that [New] has opened and [Close] closes without
    failure has made five calls, and the handles agree: the context of the
    session is the one [EstablishContext] returned, the readers were
    listed and the connect was made through it, and it is the one [Close]
    releases; the card of the session is the one the connect to a listed
    reader returned, from the world the listing left, and the one [Close]
    disconnects, leaving it in place.  The session has the clock
    [time.Now] and a period of 30 seconds. *)
Theorem New_then_Close (st : state) (o : OATH) (st1 : state) (w4 w5 : world) :
  New unicode_lower st = (Val o, st1) ->
  Disconnect (card o) LeaveCard (pcsc st1) = (None, w4) ->
  Release (context o) w4 = (None, w5) ->
  exists ctx w1 readers w2 r,
    EstablishContext (pcsc st) = (Val ctx, w1) /\
    ListReaders ctx w1 = (Val readers, w2) /\
    In r readers /\
    Connect ctx r ShareShared ProtocolAny w2 = (Val (card o), pcsc st1) /\
    context o = ctx /\
    calls st1 =
      calls st ++ [callEstablishContext; callListReaders ctx;
                   callConnect ctx r ShareShared ProtocolAny] /\
    Close o st1 =
      (None,
       mkState w5
         (calls st ++
          [callEstablishContext; callListReaders ctx;
           callConnect ctx r ShareShared ProtocolAny;
           callDisconnect (card o) LeaveCard; callRelease ctx])) /\
    Clock o = time_Now /\ Period o = (30 * Second)%N.
Proof.
  intros Hnew Hd Hr.
  assert (exists ctx w1 readers w2 r,
            EstablishContext (pcsc st) = (Val ctx, w1) /\
            ListReaders ctx w1 = (Val readers, w2) /\
            In r readers /\
            Connect ctx r ShareShared ProtocolAny w2 = (Val (card o), pcsc st1) /\
            context o = ctx /\
            calls st1 = calls st ++
              [callEstablishContext; callListReaders ctx;
               callConnect ctx r ShareShared ProtocolAny] /\
            Clock o = time_Now /\ Period o = (30 * Second)%N)
    as (ctx & w1 & readers & w2 & r & He & Hl & Hin & Hc & Hctx & Hcalls
        & Hclock & Hperiod).
  { revert Hnew.
    destruct (EstablishContext (pcsc st)) as [[ctx|e0] w1] eqn:He.
    - destruct (ListReaders ctx w1) as [[readers|e0] w2] eqn:Hl.
      + rewrite (New_listed st ctx w1 readers w2 He Hl). unfold connect_first.
        destruct (find (is_target unicode_lower) readers) as [r|] eqn:Hf;
          [|discriminate].
        cbn [pcsc calls].
        destruct (Connect ctx r ShareShared ProtocolAny w2) as [[c|e0] w3] eqn:Hc;
          [|discriminate].
        intros [= <- <-]. exists ctx, w1, readers, w2, r.
        cbn [context card pcsc calls Clock Period].
        rewrite <- app_assoc. apply find_some in Hf.
        repeat split; try assumption; try reflexivity. apply Hf.
      + unfold New, bind, invoke, ret_. rewrite He. cbn [pcsc calls]. rewrite Hl.
        discriminate.
    - unfold New, bind, invoke, ret_. rewrite He. discriminate. }
  exists ctx, w1, readers, w2, r. repeat split; try assumption.
  unfold Close, bind, invoke, ret_. rewrite Hd. cbn [pcsc calls].
  rewrite Hr, Hcalls, Hctx, <- !app_assoc. reflexivity.
Qed.

End LifecycleMore.

Lemma New_connects_first_target_witness :
  let w := Mock.mkWorld ["ACS Reader"; "YubiKey 5 NFC"; "Yubikey 4"]%string
             (Some (scardError 5)) None None [] in
  yk.New (fun s => s) (Mock.start w) =
    (Err (Errorf_w_w yk.errFailedToConnect (scardError 5)),
     yk.mkState w [callEstablishContext; callListReaders Mock.the_context;
                   callConnect Mock.the_context "YubiKey 5 NFC"
                     ShareShared ProtocolAny]).
Proof.
  intros w.
  exact (proj1 (New_connects_first_target (fun s => s) (Mock.start w)
                  Mock.the_context w
                  ["ACS Reader"; "YubiKey 5 NFC"; "Yubikey 4"]%string w
                  eq_refl eq_refl)).
Defined.

Lemma New_errors_matchable_witness :
  let w := Mock.mkWorld ["ACS Reader"]%string None None None [] in
  Is (Errorf_w_readers yk.errFailedToListSuitableReader 1)
     yk.errFailedToEstablishContext = true \/
  Is (Errorf_w_readers yk.errFailedToListSuitableReader 1)
     yk.errFailedToListReaders = true \/
  Is (Errorf_w_readers yk.errFailedToListSuitableReader 1)
     yk.errFailedToConnect = true \/
  Is (Errorf_w_readers yk.errFailedToListSuitableReader 1)
     yk.errFailedToListSuitableReader = true.
Proof.
  intros w.
  apply (New_errors_matchable (fun s => s) (Mock.start w)
           (Errorf_w_readers yk.errFailedToListSuitableReader 1)
           (yk.mkState w [callEstablishContext; callListReaders Mock.the_context])).
  reflexivity.
Defined.

Lemma New_then_Close_witness :
  let w := Mock.mkWorld ["ACS Reader"; "YubiKey 5 NFC"]%string None None None [] in
  let st1 := yk.mkState w [callEstablishContext; callListReaders Mock.the_context;
                           callConnect Mock.the_context "YubiKey 5 NFC"
                             ShareShared ProtocolAny] in
  exists ctx w1 readers w2 r,
    EstablishContext w = (Val ctx, w1) /\
    ListReaders ctx w1 = (Val readers, w2) /\
    In r readers /\
    Connect ctx r ShareShared ProtocolAny w2 = (Val Mock.the_card, w) /\
    Mock.the_context = ctx /\
    yk.calls st1 =
      [] ++ [callEstablishContext; callListReaders ctx;
             callConnect ctx r ShareShared ProtocolAny] /\
    yk.Close Mock.session st1 =
      (None,
       yk.mkState w
         ([] ++
          [callEstablishContext; callListReaders ctx;
           callConnect ctx r ShareShared ProtocolAny;
           callDisconnect Mock.the_card LeaveCard; callRelease ctx])) /\
    yk.Clock Mock.session = yk.time_Now /\
    yk.Period Mock.session = (30 * yk.Second)%N.
Proof.
  intros w st1.
  apply (New_then_Close (fun s => s) (Mock.start w) Mock.session st1 w w);
    reflexivity.
Defined.

(** ** More on the APDU transceiver *)

Section SendMore.

Import yk TLV iso7816.

Context {world : Type} {T : Transport world}.

Variable write : byte -> list (list byte) -> list byte.
Variable read : list byte -> TLV.result.

Lemma more_data_round (o : OATH) fuel acc cmd (st : state) payload n w1 :
  Transmit (card o) cmd (pcsc st) = (Val (payload ++ [x61; n]), w1) ->
  send_loop read (S fuel) o acc cmd st =
  send_loop read fuel o (acc ++ payload) remaining
    (mkState w1 (calls st ++ [callTransmit (card o) cmd])).
Proof.
  intros Ht. cbn [send_loop]. unfold bind, invoke. rewrite Ht.
  destruct (status_word_split payload x61 n) as (H1 & H2 & H3).
  rewrite H1. cbv zeta. rewrite H2, H3. reflexivity.
Qed.

Lemma send_loop_fails_after (o : OATH) w cmd k e w' :
  fails_after (card o) w cmd k e w' ->
  forall fuel acc log,
    k < fuel ->
    send_loop read fuel o acc cmd (mkState w log) =
      (Some (Failure (Errorf_w_w errFailedToTransmit e)),
       mkState w' (log ++ callTransmit (card o) cmd ::
                     repeat (callTransmit (card o) remaining) k)).
Proof.
  induction 1 as [w cmd e w' Ht|w cmd payload n w1 k e w' Ht _ IH];
    intros fuel acc log Hfuel; (destruct fuel as [|fuel]; [lia|]).
  - cbn [send_loop]. unfold bind, invoke, ret_. cbn [pcsc calls].
    now rewrite Ht.
  - rewrite (more_data_round o fuel acc cmd (mkState w log) payload n w1 Ht).
    cbn [calls]. rewrite IH by lia. rewrite <- app_assoc. reflexivity.
Qed.

(** X5: a transmit that fails, at once or after any number of answers
    closing with 0x61xx, ends [send] with [errFailedToTransmit] wrapping
    the failure of the transport; the payload gathered so far is dropped
    and nothing is transmitted again. *)
Theorem send_transmit_failure (o : OATH) (cla ins p1 p2 : byte)
    (data : list (list byte)) (st : state) (k : nat) (e : error)
    (w' : world) (fuel : nat) :
  fails_after (card o) (pcsc st) ([cla; ins; p1; p2] ++ write x00 data) k e w' ->
  k < fuel ->
  send write read fuel o cla ins p1 p2 data st =
    (Some (Failure (Errorf_w_w errFailedToTransmit e)),
     mkState w'
       (calls st ++
        transmits (card o) ([cla; ins; p1; p2] ++ write x00 data) (S k))) /\
  Is (Errorf_w_w errFailedToTransmit e) errFailedToTransmit = true.
Proof.
  intros Hf Hfuel. split; [|reflexivity].
  unfold send. destruct st as [w log]. cbn [pcsc calls] in *.
  exact (send_loop_fails_after o _ _ _ _ _ Hf fuel [] log Hfuel).
Qed.

Lemma send_loop_always_more (o : OATH) (I : world -> Prop) :
  always_more (card o) I ->
  forall fuel acc cmd (st : state),
    I (pcsc st) ->
    fst (send_loop read fuel o acc cmd st) = None /\
    length (calls (snd (send_loop read fuel o acc cmd st))) =
      length (calls st) + fuel /\
    I (pcsc (snd (send_loop read fuel o acc cmd st))).
Proof.
  intros Hmore. induction fuel as [|fuel IH]; intros acc cmd st Hst.
  - cbn. repeat split; [lia|assumption].
  - destruct (Hmore (pcsc st) cmd Hst) as (payload & n & w1 & Ht & Hw1).
    rewrite (more_data_round o fuel acc cmd st payload n w1 Ht).
    destruct (IH (acc ++ payload) remaining
                (mkState w1 (calls st ++ [callTransmit (card o) cmd])) Hw1)
      as (H1 & H2 & H3).
    repeat split; [assumption| |assumption].
    rewrite H2. cbn [calls]. rewrite length_app. simpl. lia.
Qed.

(** X6: [send] puts no bound on continuation: over a card that answers
    every command with 0x61xx the loop never ends.  However many rounds it
    is given, it has not returned after them and has transmitted in each. *)
Theorem send_never_returns_on_endless_more (o : OATH) (cla ins p1 p2 : byte)
    (data : list (list byte)) (I : world -> Prop) (st : state) (fuel : nat) :
  always_more (card o) I ->
  I (pcsc st) ->
  fst (send write read fuel o cla ins p1 p2 data st) = None /\
  length (calls (snd (send write read fuel o cla ins p1 p2 data st))) =
    length (calls st) + fuel.
Proof.
  intros Hmore Hst. unfold send.
  destruct (send_loop_always_more o I Hmore fuel []
              ([cla; ins; p1; p2] ++ write x00 data) st Hst) as (H1 & H2 & _).
  now split.
Qed.

Lemma transmits_remaining c k :
  transmits c remaining k = repeat (callTransmit c remaining) k.
Proof. destruct k; reflexivity. Qed.

Lemma send_loop_calls (o : OATH) fuel :
  forall acc cmd (st : state),
  exists k,
    Nat.min 1 fuel <= k /\ k <= fuel /\
    calls (snd (send_loop read fuel o acc cmd st)) =
      calls st ++ transmits (card o) cmd k.
Proof.
  induction fuel as [|fuel IH]; intros acc cmd st.
  - exists 0. cbn. rewrite app_nil_r. repeat split; lia.
  - cbn [send_loop]. unfold bind, invoke, ret_.
    destruct (Transmit (card o) cmd (pcsc st)) as [[res|e] w1].
    + destruct (length res <? 2).
      * exists 1. cbn. repeat split; lia.
      * cbv zeta.
        destruct (IsMore (skipn (length res - 2) res)).
        -- destruct (IH (acc ++ firstn (length res - 2) res) remaining
                       (mkState w1 (calls st ++ [callTransmit (card o) cmd])))
             as (k & Hk1 & Hk2 & Hk).
           exists (S k). fold remaining. rewrite Hk. cbn [calls].
           rewrite transmits_remaining, <- app_assoc.
           repeat split; simpl; lia.
        -- exists 1.
           destruct (IsSuccess (skipn (length res - 2) res));
             [destruct (read (acc ++ firstn (length res - 2) res))|];
             cbn; repeat split; lia.
    + exists 1. cbn. repeat split; lia.
Qed.

(** X7: whatever the card answers and however [send] ends, all it does is
    transmit to the card of its session: the command first, if it runs at
    all, and after it nothing but the "send remaining" APDU.  The command
    is never sent twice and no other call of the transport is made. *)
Theorem send_only_transmits (o : OATH) (cla ins p1 p2 : byte)
    (data : list (list byte)) (st : state) (fuel : nat) :
  exists k,
    Nat.min 1 fuel <= k /\ k <= fuel /\
    calls (snd (send write read fuel o cla ins p1 p2 data st)) =
      calls st ++
      transmits (card o) ([cla; ins; p1; p2] ++ write x00 data) k.
Proof. unfold send. apply send_loop_calls. Qed.

Lemma send_loop_failure_kinds (o : OATH) fuel :
  forall acc cmd (st : state) e st',
    send_loop read fuel o acc cmd st = (Some (Failure e), st') ->
    (exists cause, e = Errorf_w_w errFailedToTransmit cause) \/
    (exists sw1 sw2,
       e = codeError [sw1; sw2] /\
       IsMore [sw1; sw2] = false /\ IsSuccess [sw1; sw2] = false).
Proof.
  induction fuel as [|fuel IH]; intros acc cmd st e st'; [discriminate|].
  cbn [send_loop]. unfold bind, invoke, ret_.
  destruct (Transmit (card o) cmd (pcsc st)) as [[res|e0] w1].
  - destruct (length res <? 2) eqn:Hlen; [discriminate|].
    apply Nat.ltb_ge in Hlen.
    destruct (status_word_exists res Hlen) as (payload & sw1 & sw2 & ->).
    destruct (status_word_split payload sw1 sw2) as (_ & H2 & H3).
    cbv zeta. rewrite H2, H3.
    destruct (IsMore [sw1; sw2]) eqn:Hm; [apply IH|].
    destruct (IsSuccess [sw1; sw2]) eqn:Hs.
    + destruct (read (acc ++ payload)); discriminate.
    + intros [= <- _]. right. now exists sw1, sw2.
  - intros [= <- _]. left. now exists e0.
Qed.

(** X8: an error [send] returns is either [errFailedToTransmit] wrapping
    a failure of the transport or a status word of the card, two bytes
    that are neither 0x61xx nor 0x9000; a decoding failure is never
    returned as an error. *)
Theorem send_failure_kinds (o : OATH) (cla ins p1 p2 : byte)
    (data : list (list byte)) (st : state) (fuel : nat) (e : error)
    (st' : state) :
  send write read fuel o cla ins p1 p2 data st = (Some (Failure e), st') ->
  (exists cause, e = Errorf_w_w errFailedToTransmit cause) \/
  (exists sw1 sw2,
     e = codeError [sw1; sw2] /\
     IsMore [sw1; sw2] = false /\ IsSuccess [sw1; sw2] = false).
Proof. unfold send. apply send_loop_failure_kinds. Qed.

End SendMore.

Lemma send_transmit_failure_witness :
  yk.send TLV.write TLV.read 2 Mock.session x00 yk.insList x00 x00 []
    (Mock.start (work_world [Val ([x72; x05; x21] ++ [x61; x04])])) =
    (Some (yk.Failure (Errorf_w_w yk.errFailedToTransmit Mock.unavailable)),
     yk.mkState (work_world [])
       ([] ++ transmits Mock.the_card ([x00; xa1; x00; x00] ++ []) 2)) /\
  Is (Errorf_w_w yk.errFailedToTransmit Mock.unavailable)
     yk.errFailedToTransmit = true.
Proof.
  apply (send_transmit_failure TLV.write TLV.read Mock.session
           x00 yk.insList x00 x00 []
           (Mock.start (work_world [Val ([x72; x05; x21] ++ [x61; x04])]))
           1 Mock.unavailable (work_world []) 2).
  - apply (fails_later _ _ _ [x72; x05; x21] x04 (work_world []));
      [reflexivity|].
    apply fails_now. reflexivity.
  - lia.
Defined.

Lemma send_never_returns_on_endless_more_witness :
  fst (yk.send TLV.write TLV.read 1000 Mock.session x00 yk.insList x00 x00 []
         (yk.mkState (Busy.mkWorld 0) [])) = None /\
  length (yk.calls
            (snd (yk.send TLV.write TLV.read 1000 Mock.session
                    x00 yk.insList x00 x00 []
                    (yk.mkState (Busy.mkWorld 0) [])))) =
    length (@nil call) + 1000.
Proof.
  apply (send_never_returns_on_endless_more TLV.write TLV.read Mock.session
           x00 yk.insList x00 x00 [] (fun _ => True)
           (yk.mkState (Busy.mkWorld 0) []) 1000).
  - intros w cmd _. exists [], x00, (Busy.mkWorld (S (Busy.served w))).
    split; [reflexivity|exact Logic.I].
  - exact Logic.I.
Defined.

Lemma send_failure_kinds_witness :
  (exists cause,
     codeError [x6a; x82] = Errorf_w_w yk.errFailedToTransmit cause) \/
  (exists sw1 sw2,
     codeError [x6a; x82] = codeError [sw1; sw2] /\
     iso7816.IsMore [sw1; sw2] = false /\ iso7816.IsSuccess [sw1; sw2] = false).
Proof.
  apply (send_failure_kinds TLV.write TLV.read Mock.session
           x00 yk.insList x00 x00 []
           (Mock.start (work_world [Val ([x72; x05] ++ [x6a; x82])]))
           1 (codeError [x6a; x82])
           (yk.mkState (work_world [])
              [callTransmit Mock.the_card [x00; xa1; x00; x00]])).
  reflexivity.
Defined.

(** ** More on the LIST command *)

Section ListMore.

Import yk TLV.

Context {world : Type} {T : Transport world}.

Variable write : byte -> list (list byte) -> list byte.
Variable read : list byte -> TLV.result.

Lemma List_range_returns es :
  forall acc names,
    List_range es acc = Return names ->
    Forall name_entry es /\ names = acc ++ map credential es.
Proof.
  induction es as [|e es IH]; intros acc names.
  - cbn. intros [= <-]. split; [constructor|now rewrite app_nil_r].
  - cbn [List_range].
    destruct (Byte.eqb (tag e) x72) eqn:Et; [|discriminate].
    apply Byte.byte_dec_bl in Et.
    destruct (value e) as [|v0 v1] eqn:Ev; [discriminate|].
    intros H. destruct (IH _ _ H) as [Hes ->]. split.
    + constructor; [|assumption]. split; [assumption|]. rewrite Ev. discriminate.
    + rewrite <- app_assoc. cbn [map app]. unfold credential at 2.
      now rewrite Ev.
Qed.

(** X9: a card that has no credential answers the LIST instruction with
    the status word 0x9000 and no payload, in one response or over
    several; when the decoder finds no entry in an empty payload, [List]
    returns no name and no error. *)
Theorem List_empty_response (o : OATH) (st : state) (frags : list (list byte))
    (w' : world) (fuel : nat) :
  answers (card o) (pcsc st) ([x00; insList; x00; x00] ++ write x00 [])
          frags x90 x00 w' ->
  concat frags = [] ->
  read [] = Decoded [] ->
  length frags <= fuel ->
  List write read fuel o st =
    (Some (Return []),
     mkState w'
       (calls st ++
        transmits (card o) ([x00; insList; x00; x00] ++ write x00 [])
          (length frags))).
Proof.
  intros Hans Hempty Hread Hfuel.
  pose proof (answers_length _ _ _ _ _ _ _ Hans) as Hlen.
  assert (send write read fuel o x00 insList x00 x00 [] st =
            (Some (Return []),
             mkState w'
               (calls st ++
                transmits (card o) ([x00; insList; x00; x00] ++ write x00 [])
                  (length frags)))) as Hsend.
  { unfold send. destruct st as [w log]. cbn [pcsc calls] in *.
    rewrite (send_loop_answers read o _ _ _ _ _ _ Hans eq_refl fuel [] log Hfuel).
    cbn [app]. rewrite Hempty, Hread.
    destruct (length frags) as [|k]; [lia|].
    cbn [transmits]. now replace (S k - 1) with k by lia. }
  now rewrite (List_of_send write read fuel o st [] _ Hsend).
Qed.

(** X10: [List] returns names only when every entry of the response
    could be turned into one: each has the tag 0x72 and a value that is
    not empty, and the names are their credentials, one an entry, in the
    order of the response. *)
Theorem List_returns_only_credentials (fuel : nat) (o : OATH) (st : state)
    (es : tvs) (st' : state) (names : list Name) (st'' : state) :
  send write read fuel o x00 insList x00 x00 [] st = (Some (Return es), st') ->
  List write read fuel o st = (Some (Return names), st'') ->
  Forall name_entry es /\ Forall2 describes es names /\ st'' = st'.
Proof.
  intros Hs. rewrite (List_of_send write read fuel o st es st' Hs).
  intros [= Hr <-].
  destruct (List_range_returns es [] names Hr) as [Hes ->].
  repeat split; [assumption|]. cbn [app].
  clear Hs Hr. induction Hes as [|e es He _ IH]; cbn [map]; constructor.
  - now apply credential_describes.
  - exact IH.
Qed.

End ListMore.

Lemma List_empty_response_witness :
  yk.List TLV.write TLV.read 2 Mock.session
    (Mock.start (work_world [Val ([] ++ [x61; x00]); Val ([] ++ [x90; x00])])) =
    (Some (yk.Return []),
     yk.mkState (work_world [])
       ([] ++ transmits Mock.the_card ([x00; xa1; x00; x00] ++ []) 2)).
Proof.
  apply (List_empty_response TLV.write TLV.read Mock.session
           (Mock.start (work_world [Val ([] ++ [x61; x00]); Val ([] ++ [x90; x00])]))
           [[]; []] (work_world []) 2).
  - apply (answers_more _ _ _ [] x00 (work_world [Val ([] ++ [x90; x00])]));
      [reflexivity|].
    apply (answers_last _ _ _ [] x90 x00). reflexivity.
  - reflexivity.
  - reflexivity.
  - simpl. lia.
Defined.

Lemma List_returns_only_credentials_witness :
  Forall name_entry [TLV.mk_tv x72 [x21; x77; x6f; x72; x6b]] /\
  Forall2 describes [TLV.mk_tv x72 [x21; x77; x6f; x72; x6b]]
    [yk.mkName x01 x20 "work"] /\
  yk.mkState (work_world []) [callTransmit Mock.the_card [x00; xa1; x00; x00]] =
  yk.mkState (work_world []) [callTransmit Mock.the_card [x00; xa1; x00; x00]].
Proof.
  apply (List_returns_only_credentials TLV.write TLV.read 1 Mock.session
           (Mock.start (work_world [Val work_response]))); reflexivity.
Defined.

Section ListErrors.

Import yk TLV iso7816.

Context {world : Type} {T : Transport world}.

Variable write : byte -> list (list byte) -> list byte.
Variable read : list byte -> TLV.result.



End ListErrors.

